(** * MacHRIR: the lock-free byte ring of [cpp/CircularBuffer.cpp]

    A shallow embedding of [machrir::CircularBuffer] and the properties its
    design document states about it.  The class is embedded as a record,
    its member functions as computations in a small monad that threads the
    object, can stop on undefined behaviour, and records every [memcpy]
    the member function performs.  [size_t] is a 64-bit unsigned integer:
    a [Z] whose arithmetic wraps modulo [2^64].

    The embedding is sequential: one member function runs to completion
    before the next starts, so the memory orders of the atomic accesses are
    carried along as arguments and have no effect. *)

From Stdlib Require Import ZArith Lia.
From Stdlib Require Import Init.Byte Strings.Byte.
From stdpp Require Import base list gmap.

Local Open Scope Z_scope.

(** ** [size_t] arithmetic *)

Module SizeT.

Definition modulus : Z := 2 ^ 64.
Definition SIZE_MAX : Z := modulus - 1.
Definition PTRDIFF_MAX : Z := 2 ^ 63 - 1.

Definition wrap (x : Z) : Z := x mod modulus.
Definition add (a b : Z) : Z := wrap (a + b).
Definition sub (a b : Z) : Z := wrap (a - b).

(** A value of type [size_t]. *)
Definition fits (x : Z) : Prop := 0 <= x <= SIZE_MAX.

End SizeT.

(** ** Undefined behaviour and the monad of member functions *)

Inductive fault : Set :=
| OutOfBounds      (* a memcpy or memset outside the region it is given *)
| DivisionByZero.  (* operator % with a zero divisor *)

Inductive outcome (A : Type) : Type :=
| Done (a : A)
| Undefined (f : fault).
Arguments Done {A} a.
Arguments Undefined {A} f.

(** The object: [buffer_] is the allocated region as a list of bytes,
    the two atomics hold their current value. *)
Record CircularBuffer : Type := mkCircularBuffer {
  buffer_ : list byte;
  capacity_ : Z;
  writeIndex_ : Z;
  readIndex_ : Z
}.

(** Where a [memcpy] argument points: into [buffer_] or into the memory the
    caller passed as [data], at a byte offset. *)
Inductive pointer : Set :=
| Storage (off : Z)
| Caller (off : Z).

(** One executed [memcpy(dst, src, n)]. *)
Inductive copy : Set :=
| Memcpy (dst src : pointer) (n : Z).

Definition M (A : Type) : Type :=
  CircularBuffer -> outcome (A * CircularBuffer * list copy).

Definition ret {A : Type} (a : A) : M A := fun b => Done (a, b, []).

Definition fail {A : Type} (f : fault) : M A := fun _ => Undefined f.

Definition bind {A B : Type} (m : M A) (k : A -> M B) : M B := fun b =>
  match m b with
  | Undefined f => Undefined f
  | Done (a, b1, l1) =>
      match k a b1 with
      | Undefined f => Undefined f
      | Done (x, b2, l2) => Done (x, b2, l1 ++ l2)
      end
  end.

Notation "'let*' x ':=' m 'in' k" := (bind m (fun x => k))
  (at level 10, x name, m at level 100, k at level 200).
Notation "m ';;' k" := (bind m (fun _ => k))
  (at level 100, k at level 200, right associativity).

(** ** Memory primitives *)

Inductive memory_order : Set :=
| memory_order_relaxed
| memory_order_acquire
| memory_order_release.

Definition len (l : list byte) : Z := Z.of_nat (length l).

(** [n] bytes starting at offset [off] lie inside [l].  An empty range at
    the one-past-the-end offset is inside. *)
Definition in_bounds (l : list byte) (off n : Z) : bool :=
  (0 <=? off) && (0 <=? n) && (off + n <=? len l).

(** The region [dst] after [n] bytes of [src], from offset [soff], were
    copied to its offset [doff]. *)
Definition blit (dst : list byte) (doff : Z) (src : list byte) (soff n : Z)
  : list byte :=
  take (Z.to_nat doff) dst
    ++ take (Z.to_nat n) (drop (Z.to_nat soff) src)
    ++ drop (Z.to_nat (doff + n)) dst.

Definition load_writeIndex (_ : memory_order) : M Z :=
  fun b => Done (writeIndex_ b, b, []).

Definition load_readIndex (_ : memory_order) : M Z :=
  fun b => Done (readIndex_ b, b, []).

Definition store_writeIndex (v : Z) (_ : memory_order) : M unit :=
  fun b => Done (tt, mkCircularBuffer (buffer_ b) (capacity_ b) v (readIndex_ b), []).

Definition store_readIndex (v : Z) (_ : memory_order) : M unit :=
  fun b => Done (tt, mkCircularBuffer (buffer_ b) (capacity_ b) (writeIndex_ b) v, []).

Definition get_capacity : M Z := fun b => Done (capacity_ b, b, []).

(** [std::memcpy(buffer_ + off, src + soff, n)] *)
Definition memcpy_to_buffer (off : Z) (src : list byte) (soff n : Z) : M unit :=
  fun b =>
    if in_bounds (buffer_ b) off n && in_bounds src soff n then
      Done (tt,
            mkCircularBuffer (blit (buffer_ b) off src soff n)
              (capacity_ b) (writeIndex_ b) (readIndex_ b),
            [Memcpy (Storage off) (Caller soff) n])
    else Undefined OutOfBounds.

(** [std::memcpy(dest + doff, buffer_ + off, n)]; the result is the
    caller's region after the copy. *)
Definition memcpy_from_buffer (dest : list byte) (doff off n : Z)
  : M (list byte) :=
  fun b =>
    if in_bounds dest doff n && in_bounds (buffer_ b) off n then
      Done (blit dest doff (buffer_ b) off n, b,
            [Memcpy (Caller doff) (Storage off) n])
    else Undefined OutOfBounds.

(** [std::memset(buffer_, v, n)] *)
Definition memset_buffer (v : byte) (n : Z) : M unit :=
  fun b =>
    if in_bounds (buffer_ b) 0 n then
      Done (tt,
            mkCircularBuffer
              (replicate (Z.to_nat n) v ++ drop (Z.to_nat n) (buffer_ b))
              (capacity_ b) (writeIndex_ b) (readIndex_ b),
            [])
    else Undefined OutOfBounds.

(** [a % b] on [size_t] *)
Definition rem (a b : Z) : M Z :=
  if b =? 0 then fail DivisionByZero else ret (a mod b).

(** ** The member functions of [CircularBuffer.cpp] *)

Definition availableRead : M Z :=
  let* writeIdx := load_writeIndex memory_order_acquire in
  let* readIdx := load_readIndex memory_order_relaxed in
  let* capacity := get_capacity in
  if writeIdx >=? readIdx then
    ret (SizeT.sub writeIdx readIdx)
  else
    ret (SizeT.sub capacity (SizeT.sub readIdx writeIdx)).

Definition availableWrite : M Z :=
  let* writeIdx := load_writeIndex memory_order_relaxed in
  let* readIdx := load_readIndex memory_order_acquire in
  let* capacity := get_capacity in
  if writeIdx >=? readIdx then
    ret (SizeT.sub (SizeT.sub capacity (SizeT.sub writeIdx readIdx)) 1)
  else
    ret (SizeT.sub (SizeT.sub readIdx writeIdx) 1).

(** [write(data, size)]: [data] is the caller's source region. *)
Definition write (data : list byte) (size : Z) : M Z :=
  let* available := availableWrite in
  let toWrite := Z.min size available in
  if toWrite =? 0 then ret 0
  else
    let* writeIdx := load_writeIndex memory_order_relaxed in
    let* capacity := get_capacity in
    let firstChunk := Z.min toWrite (SizeT.sub capacity writeIdx) in
    memcpy_to_buffer writeIdx data 0 firstChunk ;;
    (if firstChunk <? toWrite then
       memcpy_to_buffer 0 data firstChunk (SizeT.sub toWrite firstChunk)
     else ret tt) ;;
    let* next := rem (SizeT.add writeIdx toWrite) capacity in
    store_writeIndex next memory_order_release ;;
    ret toWrite.

(** [read(data, size)]: [data] is the caller's destination region; the
    result pairs that region after the call with the returned count. *)
Definition read (data : list byte) (size : Z) : M (list byte * Z) :=
  let* available := availableRead in
  let toRead := Z.min size available in
  if toRead =? 0 then ret (data, 0)
  else
    let* readIdx := load_readIndex memory_order_relaxed in
    let* capacity := get_capacity in
    let firstChunk := Z.min toRead (SizeT.sub capacity readIdx) in
    let* data1 := memcpy_from_buffer data 0 readIdx firstChunk in
    let* data2 :=
      (if firstChunk <? toRead then
         memcpy_from_buffer data1 firstChunk 0 (SizeT.sub toRead firstChunk)
       else ret data1) in
    let* next := rem (SizeT.add readIdx toRead) capacity in
    store_readIndex next memory_order_release ;;
    ret (data2, toRead).

(** [nextIndex(current)], the private helper of [CircularBuffer.hpp]. *)
Definition nextIndex (current : Z) : M Z :=
  let* capacity := get_capacity in
  rem (SizeT.add current 1) capacity.

Definition reset : M unit :=
  store_writeIndex 0 memory_order_relaxed ;;
  store_readIndex 0 memory_order_relaxed ;;
  let* capacity := get_capacity in
  memset_buffer x00 capacity.

(** ** Construction

    The constructor asks [posix_memalign] for [capacity] bytes and throws
    [std::bad_alloc] when it answers with a non-zero code.  The allocator
    belongs to the C library; it is a parameter here, given by the code it
    returns for an alignment and a size.  The block it hands out is
    overwritten with zeros before anyone reads it. *)

Inductive construction : Type :=
| Constructed (b : CircularBuffer)
| bad_alloc.

Section Allocator.

Variable posix_memalign : Z -> Z -> Z.

Definition new_CircularBuffer (capacity : Z) : construction :=
  if negb (posix_memalign 16 capacity =? 0) then bad_alloc
  else
    Constructed
      (mkCircularBuffer (replicate (Z.to_nat capacity) x00) capacity 0 0).

(** The states a program can bring a buffer into: construct it, then call
    [write], [read] and [reset] one after the other with arguments of
    type [size_t], as long as no call is undefined. *)
Inductive reachable : CircularBuffer -> Prop :=
| reach_new capacity b :
    SizeT.fits capacity ->
    new_CircularBuffer capacity = Constructed b ->
    reachable b
| reach_write b data size n b' l :
    reachable b -> SizeT.fits size ->
    write data size b = Done (n, b', l) ->
    reachable b'
| reach_read b data size r b' l :
    reachable b -> SizeT.fits size ->
    read data size b = Done (r, b', l) ->
    reachable b'
| reach_reset b b' l :
    reachable b ->
    reset b = Done (tt, b', l) ->
    reachable b'.

End Allocator.

(** An allocator for the examples: it serves up to 64 KiB and answers
    [ENOMEM] (12) above. *)
Definition small_memalign (_ size : Z) : Z :=
  if size <=? 65536 then 0 else 12.

(** The representation invariant of the class: the capacity is a
    [size_t], [buffer_] has [capacity_] bytes, and each index is below the
    capacity (and is 0 when the capacity is 0). *)
Record valid (b : CircularBuffer) : Prop := mkValid {
  valid_capacity : SizeT.fits (capacity_ b);
  valid_buffer : len (buffer_ b) = capacity_ b;
  valid_writeIndex : 0 <= writeIndex_ b <= Z.max 0 (capacity_ b - 1);
  valid_readIndex : 0 <= readIndex_ b <= Z.max 0 (capacity_ b - 1)
}.

(** The byte of a region at a [size_t] offset. *)
Definition byte_at (l : list byte) (i : Z) : option byte := l !! Z.to_nat i.

(** The storage after [write] copied [n] bytes of [data] at index [w]: the
    first [memcpy] up to the end of the region, the second, when bytes
    remain, from offset 0. *)
Definition put (buf data : list byte) (w n C : Z) : list byte :=
  let f := Z.min n (C - w) in
  if f <? n then blit (blit buf w data 0 f) 0 data f (n - f)
  else blit buf w data 0 f.

Definition put_copies (w n C : Z) : list copy :=
  let f := Z.min n (C - w) in
  if f <? n then
    [Memcpy (Storage w) (Caller 0) f; Memcpy (Storage 0) (Caller f) (n - f)]
  else [Memcpy (Storage w) (Caller 0) f].

(** The caller's region after [read] copied [n] bytes out from index [r]. *)
Definition get (dest buf : list byte) (r n C : Z) : list byte :=
  let f := Z.min n (C - r) in
  if f <? n then blit (blit dest 0 buf r f) f buf 0 (n - f)
  else blit dest 0 buf r f.

Definition get_copies (r n C : Z) : list copy :=
  let f := Z.min n (C - r) in
  if f <? n then
    [Memcpy (Caller 0) (Storage r) f; Memcpy (Caller f) (Storage 0) (n - f)]
  else [Memcpy (Caller 0) (Storage r) f].

(** A [memcpy] whose destination range lies in a storage of [C] bytes. *)
Definition inside_storage (C : Z) (c : copy) : Prop :=
  match c with
  | Memcpy (Storage off) (Caller _) n => 0 <= off /\ 0 <= n /\ off + n <= C
  | _ => False
  end.

(** Buffers of capacity 8 used as examples: freshly constructed, holding
    two bytes, full, emptied with both indices at 6, and holding five bytes
    across the wrap point. *)
Definition fresh8 : CircularBuffer :=
  mkCircularBuffer [x00; x00; x00; x00; x00; x00; x00; x00] 8 0 0.
Definition holding2 : CircularBuffer :=
  mkCircularBuffer [x01; x02; x00; x00; x00; x00; x00; x00] 8 2 0.
Definition full8 : CircularBuffer :=
  mkCircularBuffer [x01; x02; x03; x04; x05; x06; x07; x00] 8 7 0.
Definition drained6 : CircularBuffer :=
  mkCircularBuffer [x01; x02; x03; x04; x05; x06; x00; x00] 8 6 6.
Definition wrapped : CircularBuffer :=
  mkCircularBuffer [x09; x0a; x0b; x04; x05; x06; x07; x08] 8 3 6.

(** Caller regions used as examples. *)
Definition six : list byte := [x01; x02; x03; x04; x05; x06].
Definition five : list byte := [x07; x08; x09; x0a; x0b].
Definition seven : list byte := [x03; x04; x05; x06; x07; x08; x09].
Definition blank (n : nat) : list byte := replicate n x00.

(** The bytes a buffer holds, oldest first: the storage read circularly
    from [readIndex_], as many bytes as [availableRead] reports. *)
Definition stored (b : CircularBuffer) : list byte :=
  take (Z.to_nat ((writeIndex_ b - readIndex_ b) mod capacity_ b))
    (drop (Z.to_nat (readIndex_ b)) (buffer_ b)
       ++ take (Z.to_nat (readIndex_ b)) (buffer_ b)).

(** A sequence of producer and consumer calls, run one after the other.
    [run] collects the bytes the writes accepted and the bytes the reads
    delivered. *)
Inductive call : Type :=
| CallWrite (data : list byte) (size : Z)
| CallRead (data : list byte) (size : Z).

(** The caller's side of a call: [size] is a [size_t] and the region
    passed as [data] has at least [size] bytes. *)
Definition well_formed (c : call) : Prop :=
  match c with
  | CallWrite data size | CallRead data size =>
      SizeT.fits size /\ size <= len data
  end.

Fixpoint run (calls : list call) (b : CircularBuffer)
  (accepted delivered : list byte)
  : outcome (CircularBuffer * list byte * list byte) :=
  match calls with
  | [] => Done (b, accepted, delivered)
  | CallWrite data size :: rest =>
      match write data size b with
      | Done (n, b', _) =>
          run rest b' (accepted ++ take (Z.to_nat n) data) delivered
      | Undefined f => Undefined f
      end
  | CallRead data size :: rest =>
      match read data size b with
      | Done ((data', n), b', _) =>
          run rest b' accepted (delivered ++ take (Z.to_nat n) data')
      | Undefined f => Undefined f
      end
  end.

(** ** The C bridge of [CircularBuffer_bridge.cpp]

    A handle is the address of a [CircularBuffer] object, 0 for the null
    pointer.  The objects that exist are a finite map from addresses; a
    bridge function casts the handle and calls the member function on the
    object found there.  Calling through a null handle, or through one that
    points to no live object, is undefined.  [operator new] belongs to the
    C++ runtime: it is a parameter that picks the address of the new object,
    or throws. *)

Definition nullptr : Z := 0.

(** Why a bridge call is undefined: the handle is null, it points to no
    live object, or the member function it calls is undefined. *)
Inductive bridge_fault : Set :=
| NullHandle
| DanglingHandle
| InObject (f : fault).

(** A bridge call returns a value and leaves a set of live objects. *)
Inductive bridge_result (A : Type) : Type :=
| Returns (a : A) (live : gmap Z CircularBuffer)
| Crashes (f : bridge_fault).
Arguments Returns {A} a live.
Arguments Crashes {A} f.

(** [reinterpret_cast] the handle and call a member function on the
    object: every bridge function but create and destroy. *)
Definition with_object {A : Type} (p : Z) (m : M A)
  (live : gmap Z CircularBuffer) : bridge_result A :=
  if p =? nullptr then Crashes NullHandle
  else
    match live !! p with
    | None => Crashes DanglingHandle
    | Some b =>
        match m b with
        | Done (a, b', _) => Returns a (<[p := b']> live)
        | Undefined f => Crashes (InObject f)
        end
    end.

Definition circular_buffer_write (p : Z) (data : list byte) (size : Z) :=
  with_object p (write data size).
Definition circular_buffer_read (p : Z) (data : list byte) (size : Z) :=
  with_object p (read data size).
Definition circular_buffer_reset (p : Z) := with_object p reset.
Definition circular_buffer_available_read (p : Z) :=
  with_object p availableRead.
Definition circular_buffer_available_write (p : Z) :=
  with_object p availableWrite.

(** [delete] of the null pointer does nothing; of a live object, it runs
    the destructor, which frees the storage, and releases the object. *)
Definition circular_buffer_destroy (p : Z) (live : gmap Z CircularBuffer)
  : bridge_result unit :=
  if p =? nullptr then Returns tt live
  else
    match live !! p with
    | None => Crashes DanglingHandle
    | Some _ => Returns tt (delete p live)
    end.

Section Bridge.

Variable posix_memalign : Z -> Z -> Z.
Variable operator_new : gmap Z CircularBuffer -> option Z.

(** [new] takes an address from [operator new] and runs the constructor;
    whatever is thrown is caught and answered with the null handle. *)
Definition circular_buffer_create (capacity : Z)
  (live : gmap Z CircularBuffer) : bridge_result Z :=
  match operator_new live with
  | None => Returns nullptr live
  | Some p =>
      match new_CircularBuffer posix_memalign capacity with
      | Constructed b => Returns p (<[p := b]> live)
      | bad_alloc => Returns nullptr live
      end
  end.

End Bridge.

(** An [operator new] for the examples: the address after the number of
    live objects, when it is free. *)
Definition bump_new (live : gmap Z CircularBuffer) : option Z :=
  let p := Z.of_nat (size live) + 1 in
  match live !! p with
  | Some _ => None
  | None => Some p
  end.

(** Every live object sits at a non-null address and is in a state a
    program can bring it into. *)
Definition sound (posix_memalign : Z -> Z -> Z)
  (live : gmap Z CircularBuffer) : Prop :=
  forall p b, live !! p = Some b -> p <> nullptr /\ reachable posix_memalign b.

(** More example objects: a buffer of capacity 0, one of capacity 1, and
    two sets of live objects. *)
Definition empty0 : CircularBuffer := mkCircularBuffer [] 0 0 0.
Definition one_live : gmap Z CircularBuffer := <[1 := fresh8]> ∅.
Definition two_live : gmap Z CircularBuffer := <[2 := holding2]> one_live.
Definition single1 : CircularBuffer := mkCircularBuffer [x00] 1 0 0.

Ltac unfold_ops :=
  unfold rem in *;
  unfold bind, ret, fail, load_writeIndex, load_readIndex,
    store_writeIndex, store_readIndex, get_capacity,
    memcpy_to_buffer, memcpy_from_buffer, memset_buffer in *.

Ltac bounds :=
  repeat match goal with
    | H : _ && _ = true |- _ => apply andb_true_iff in H; destruct H
    | H : in_bounds _ _ _ = true |- _ => unfold in_bounds in H
    | H : (_ <=? _) = true |- _ => apply Z.leb_le in H
    | H : (_ =? _) = true |- _ => apply Z.eqb_eq in H
    | H : (_ =? _) = false |- _ => apply Z.eqb_neq in H
    | H : (_ <? _) = true |- _ => apply Z.ltb_lt in H
    | H : (_ <? _) = false |- _ => apply Z.ltb_ge in H
    end.

(** ** Regions and [blit] *)

Lemma in_bounds_true l off n :
  in_bounds l off n = true <-> 0 <= off /\ 0 <= n /\ off + n <= len l.
Proof. unfold in_bounds. rewrite !andb_true_iff, !Z.leb_le. tauto. Qed.

Lemma blit_length dst doff src soff n :
  0 <= doff -> 0 <= n -> doff + n <= len dst ->
  0 <= soff -> soff + n <= len src ->
  len (blit dst doff src soff n) = len dst.
Proof.
  unfold blit, len. intros.
  rewrite !length_app, !length_take, !length_drop. lia.
Qed.

Lemma blit_inside dst doff src soff n i :
  0 <= doff -> 0 <= n -> doff + n <= len dst ->
  0 <= soff -> soff + n <= len src ->
  doff <= i < doff + n ->
  byte_at (blit dst doff src soff n) i = byte_at src (soff + (i - doff)).
Proof.
  unfold blit, byte_at, len. intros.
  rewrite lookup_app_r by (rewrite length_take; lia).
  rewrite length_take.
  rewrite lookup_app_l by (rewrite length_take, length_drop; lia).
  rewrite lookup_take_lt by lia.
  rewrite lookup_drop. f_equal. lia.
Qed.

Lemma blit_outside dst doff src soff n i :
  0 <= doff -> 0 <= n -> doff + n <= len dst ->
  0 <= soff -> soff + n <= len src ->
  0 <= i -> ~ (doff <= i < doff + n) ->
  byte_at (blit dst doff src soff n) i = byte_at dst i.
Proof.
  unfold blit, byte_at, len. intros.
  destruct (Z_lt_ge_dec i doff).
  - rewrite lookup_app_l by (rewrite length_take; lia).
    apply lookup_take_lt. lia.
  - rewrite lookup_app_r by (rewrite length_take; lia).
    rewrite lookup_app_r by (rewrite !length_take, length_drop; lia).
    rewrite !length_take, length_drop, lookup_drop. f_equal. lia.
Qed.

(** ** The observers *)

Lemma wrap_small x : 0 <= x < SizeT.modulus -> SizeT.wrap x = x.
Proof. intros. unfold SizeT.wrap. apply Z.mod_small. assumption. Qed.

Lemma availableRead_run b :
  availableRead b =
  Done (if writeIndex_ b >=? readIndex_ b
        then SizeT.sub (writeIndex_ b) (readIndex_ b)
        else SizeT.sub (capacity_ b) (SizeT.sub (readIndex_ b) (writeIndex_ b)),
        b, []).
Proof.
  unfold availableRead, bind, load_writeIndex, load_readIndex, get_capacity.
  simpl. destruct (writeIndex_ b >=? readIndex_ b); reflexivity.
Qed.

Lemma availableWrite_run b :
  availableWrite b =
  Done (if writeIndex_ b >=? readIndex_ b
        then SizeT.sub (SizeT.sub (capacity_ b)
                          (SizeT.sub (writeIndex_ b) (readIndex_ b))) 1
        else SizeT.sub (SizeT.sub (readIndex_ b) (writeIndex_ b)) 1,
        b, []).
Proof.
  unfold availableWrite, bind, load_writeIndex, load_readIndex, get_capacity.
  simpl. destruct (writeIndex_ b >=? readIndex_ b); reflexivity.
Qed.

Lemma ring_distance w r C :
  0 <= w < C -> 0 <= r < C ->
  (w - r) mod C = if w >=? r then w - r else C - (r - w).
Proof.
  intros. destruct (w >=? r) eqn:E.
  - apply Z.mod_small. lia.
  - symmetry. apply (Z.mod_unique _ _ (-1)); lia.
Qed.

Lemma availableRead_valid b :
  valid b -> 1 <= capacity_ b ->
  availableRead b =
  Done ((writeIndex_ b - readIndex_ b) mod capacity_ b, b, []).
Proof.
  intros [Hc Hb Hw Hr] H1. rewrite availableRead_run.
  rewrite ring_distance by lia. unfold SizeT.fits, SizeT.SIZE_MAX in Hc.
  unfold SizeT.sub.
  destruct (writeIndex_ b >=? readIndex_ b) eqn:E.
  - rewrite wrap_small by lia. reflexivity.
  - rewrite (wrap_small (readIndex_ b - writeIndex_ b)) by lia.
    rewrite wrap_small by lia. reflexivity.
Qed.

Lemma availableWrite_valid b :
  valid b -> 1 <= capacity_ b ->
  availableWrite b =
  Done (capacity_ b - 1 - (writeIndex_ b - readIndex_ b) mod capacity_ b, b, []).
Proof.
  intros [Hc Hb Hw Hr] H1. rewrite availableWrite_run.
  rewrite ring_distance by lia. unfold SizeT.fits, SizeT.SIZE_MAX in Hc.
  unfold SizeT.sub.
  destruct (writeIndex_ b >=? readIndex_ b) eqn:E.
  - rewrite (wrap_small (writeIndex_ b - readIndex_ b)) by lia.
    rewrite (wrap_small (capacity_ b - _)) by lia.
    rewrite wrap_small by lia. f_equal. f_equal. f_equal. lia.
  - rewrite (wrap_small (readIndex_ b - writeIndex_ b)) by lia.
    rewrite wrap_small by lia. f_equal. f_equal. f_equal. lia.
Qed.

(** ** [write] and [read] on a valid buffer *)

Lemma memcpy_to_buffer_run off src soff n b :
  0 <= off -> 0 <= n -> off + n <= len (buffer_ b) ->
  0 <= soff -> soff + n <= len src ->
  memcpy_to_buffer off src soff n b =
  Done (tt, mkCircularBuffer (blit (buffer_ b) off src soff n)
              (capacity_ b) (writeIndex_ b) (readIndex_ b),
        [Memcpy (Storage off) (Caller soff) n]).
Proof.
  intros. unfold memcpy_to_buffer.
  rewrite (proj2 (in_bounds_true (buffer_ b) off n)) by lia.
  rewrite (proj2 (in_bounds_true src soff n)) by lia.
  reflexivity.
Qed.

Lemma memcpy_from_buffer_run dest doff off n b :
  0 <= doff -> 0 <= n -> doff + n <= len dest ->
  0 <= off -> off + n <= len (buffer_ b) ->
  memcpy_from_buffer dest doff off n b =
  Done (blit dest doff (buffer_ b) off n, b,
        [Memcpy (Caller doff) (Storage off) n]).
Proof.
  intros. unfold memcpy_from_buffer.
  rewrite (proj2 (in_bounds_true dest doff n)) by lia.
  rewrite (proj2 (in_bounds_true (buffer_ b) off n)) by lia.
  reflexivity.
Qed.

Lemma write_run b data size :
  valid b -> 1 <= capacity_ b -> 0 <= size ->
  let n := Z.min size
             (capacity_ b - 1 - (writeIndex_ b - readIndex_ b) mod capacity_ b) in
  n <= len data ->
  write data size b =
  Done (n,
        (if n =? 0 then b
         else mkCircularBuffer
                (put (buffer_ b) data (writeIndex_ b) n (capacity_ b))
                (capacity_ b)
                (SizeT.add (writeIndex_ b) n mod capacity_ b)
                (readIndex_ b)),
        if n =? 0 then [] else put_copies (writeIndex_ b) n (capacity_ b)).
Proof.
  intros Hv H1 Hs n Hn. unfold write, bind at 1.
  rewrite availableWrite_valid by assumption. fold n.
  pose proof (Z.mod_pos_bound (writeIndex_ b - readIndex_ b) (capacity_ b)
                ltac:(lia)) as Hd.
  destruct Hv as [Hc Hb Hw Hr]. unfold SizeT.fits, SizeT.SIZE_MAX in Hc.
  destruct (n =? 0) eqn:E0.
  { apply Z.eqb_eq in E0. rewrite E0. reflexivity. }
  apply Z.eqb_neq in E0.
  assert (1 <= n <= capacity_ b - 1) by lia.
  unfold bind, load_writeIndex, get_capacity, put, put_copies, rem,
    store_writeIndex, ret, fail, SizeT.sub.
  rewrite (wrap_small (capacity_ b - writeIndex_ b)) by lia.
  set (f := Z.min n (capacity_ b - writeIndex_ b)).
  assert (1 <= f <= n /\ f <= capacity_ b - writeIndex_ b) as Hf
    by (unfold f; lia).
  rewrite memcpy_to_buffer_run by lia. cbn [buffer_ capacity_ writeIndex_ readIndex_].
  destruct (f <? n) eqn:Ef.
  - apply Z.ltb_lt in Ef.
    rewrite (wrap_small (n - f)) by lia.
    rewrite memcpy_to_buffer_run
      by (cbn [buffer_]; try rewrite blit_length; lia).
    cbn [buffer_ capacity_ writeIndex_ readIndex_].
    destruct (capacity_ b =? 0) eqn:Ec; [apply Z.eqb_eq in Ec; lia|].
    reflexivity.
  - destruct (capacity_ b =? 0) eqn:Ec; [apply Z.eqb_eq in Ec; lia|].
    reflexivity.
Qed.

Lemma read_run b data size :
  valid b -> 1 <= capacity_ b -> 0 <= size ->
  let n := Z.min size ((writeIndex_ b - readIndex_ b) mod capacity_ b) in
  n <= len data ->
  read data size b =
  Done ((if n =? 0 then data
         else get data (buffer_ b) (readIndex_ b) n (capacity_ b), n),
        (if n =? 0 then b
         else mkCircularBuffer (buffer_ b) (capacity_ b) (writeIndex_ b)
                (SizeT.add (readIndex_ b) n mod capacity_ b)),
        if n =? 0 then [] else get_copies (readIndex_ b) n (capacity_ b)).
Proof.
  intros Hv H1 Hs n Hn. unfold read, bind at 1.
  rewrite availableRead_valid by assumption. fold n.
  pose proof (Z.mod_pos_bound (writeIndex_ b - readIndex_ b) (capacity_ b)
                ltac:(lia)) as Hd.
  destruct Hv as [Hc Hb Hw Hr]. unfold SizeT.fits, SizeT.SIZE_MAX in Hc.
  destruct (n =? 0) eqn:E0.
  { apply Z.eqb_eq in E0. rewrite E0. reflexivity. }
  apply Z.eqb_neq in E0.
  assert (1 <= n <= capacity_ b - 1) by lia.
  unfold bind, load_readIndex, get_capacity, get, get_copies, rem,
    store_readIndex, ret, fail, SizeT.sub.
  rewrite (wrap_small (capacity_ b - readIndex_ b)) by lia.
  set (f := Z.min n (capacity_ b - readIndex_ b)).
  assert (1 <= f <= n /\ f <= capacity_ b - readIndex_ b) as Hf
    by (unfold f; lia).
  rewrite memcpy_from_buffer_run by lia.
  destruct (f <? n) eqn:Ef.
  - apply Z.ltb_lt in Ef.
    rewrite (wrap_small (n - f)) by lia.
    rewrite memcpy_from_buffer_run by (try rewrite blit_length; lia).
    destruct (capacity_ b =? 0) eqn:Ec; [apply Z.eqb_eq in Ec; lia|].
    reflexivity.
  - destruct (capacity_ b =? 0) eqn:Ec; [apply Z.eqb_eq in Ec; lia|].
    reflexivity.
Qed.

(** ** Where the bytes go in the ring *)

Lemma put_length buf data w n C :
  len buf = C -> 0 <= w < C -> 0 <= n <= C -> n <= len data ->
  len (put buf data w n C) = len buf.
Proof.
  intros. unfold put.
  destruct (Z.min n (C - w) <? n) eqn:E.
  - apply Z.ltb_lt in E. rewrite !blit_length; try lia.
    rewrite blit_length; lia.
  - apply Z.ltb_ge in E. rewrite blit_length; lia.
Qed.

Lemma ring_position w i C :
  0 <= w < C -> 0 <= i < C ->
  (w + i) mod C = if w + i <? C then w + i else w + i - C.
Proof.
  intros. destruct (w + i <? C) eqn:E.
  - apply Z.ltb_lt in E. apply Z.mod_small. lia.
  - apply Z.ltb_ge in E. symmetry. apply (Z.mod_unique _ _ 1); lia.
Qed.

Lemma put_written buf data w n C i :
  len buf = C -> 0 <= w < C -> 0 <= n <= C -> n <= len data ->
  0 <= i < n ->
  byte_at (put buf data w n C) ((w + i) mod C) = byte_at data i.
Proof.
  intros Hb Hw Hn Hd Hi. unfold put. rewrite ring_position by lia.
  destruct (Z.min n (C - w) <? n) eqn:E.
  - apply Z.ltb_lt in E.
    destruct (w + i <? C) eqn:Ep.
    + apply Z.ltb_lt in Ep.
      rewrite blit_outside by (try rewrite blit_length; lia).
      rewrite blit_inside by lia. f_equal. lia.
    + apply Z.ltb_ge in Ep.
      rewrite blit_inside by (try rewrite blit_length; lia).
      f_equal. lia.
  - apply Z.ltb_ge in E.
    destruct (w + i <? C) eqn:Ep.
    + rewrite blit_inside by lia. f_equal. lia.
    + apply Z.ltb_ge in Ep. lia.
Qed.

Lemma put_untouched buf data w n C p :
  len buf = C -> 0 <= w < C -> 0 <= n <= C -> n <= len data ->
  0 <= p < C -> n <= (p - w) mod C ->
  byte_at (put buf data w n C) p = byte_at buf p.
Proof.
  intros Hb Hw Hn Hd Hp Hout. unfold put.
  rewrite ring_distance in Hout by lia.
  destruct (p >=? w) eqn:Epw;
    [apply Z.geb_le in Epw | rewrite Z.geb_leb in Epw; apply Z.leb_gt in Epw].
  - destruct (Z.min n (C - w) <? n) eqn:E.
    + apply Z.ltb_lt in E. lia.
    + apply Z.ltb_ge in E. apply blit_outside; lia.
  - destruct (Z.min n (C - w) <? n) eqn:E.
    + apply Z.ltb_lt in E.
      rewrite blit_outside by (try rewrite blit_length; lia).
      apply blit_outside; lia.
    + apply Z.ltb_ge in E. apply blit_outside; lia.
Qed.

Lemma get_length dest buf r n C :
  len buf = C -> 0 <= r < C -> 0 <= n <= C -> n <= len dest ->
  len (get dest buf r n C) = len dest.
Proof.
  intros. unfold get.
  destruct (Z.min n (C - r) <? n) eqn:E.
  - apply Z.ltb_lt in E. rewrite !blit_length; try lia.
    rewrite blit_length; lia.
  - apply Z.ltb_ge in E. rewrite blit_length; lia.
Qed.

Lemma get_read dest buf r n C i :
  len buf = C -> 0 <= r < C -> 0 <= n <= C -> n <= len dest ->
  0 <= i < n ->
  byte_at (get dest buf r n C) i = byte_at buf ((r + i) mod C).
Proof.
  intros Hb Hr Hn Hd Hi. unfold get. rewrite ring_position by lia.
  destruct (Z.min n (C - r) <? n) eqn:E.
  - apply Z.ltb_lt in E.
    destruct (r + i <? C) eqn:Ep.
    + apply Z.ltb_lt in Ep.
      rewrite blit_outside by (try rewrite blit_length; lia).
      rewrite blit_inside by lia. f_equal. lia.
    + apply Z.ltb_ge in Ep.
      rewrite blit_inside by (try rewrite blit_length; lia).
      f_equal. lia.
  - apply Z.ltb_ge in E.
    destruct (r + i <? C) eqn:Ep.
    + rewrite blit_inside by lia. f_equal. lia.
    + apply Z.ltb_ge in Ep. lia.
Qed.

Lemma get_rest dest buf r n C i :
  len buf = C -> 0 <= r < C -> 0 <= n <= C -> n <= len dest ->
  n <= i ->
  byte_at (get dest buf r n C) i = byte_at dest i.
Proof.
  intros Hb Hr Hn Hd Hi. unfold get.
  destruct (Z.min n (C - r) <? n) eqn:E.
  - apply Z.ltb_lt in E.
    rewrite blit_outside by (try rewrite blit_length; lia).
    apply blit_outside; lia.
  - apply Z.ltb_ge in E. apply blit_outside; lia.
Qed.

(** ** The invariant is kept *)

Lemma mod_cursor x C : 0 <= C -> C <> 0 -> 0 <= x mod C <= Z.max 0 (C - 1).
Proof. intros. pose proof (Z.mod_pos_bound x C). lia. Qed.

Lemma write_valid b data size n b' l :
  valid b -> write data size b = Done (n, b', l) ->
  valid b' /\ capacity_ b' = capacity_ b /\ (length l <= 2)%nat.
Proof.
  intros Hv H. unfold write in H. unfold bind at 1 in H.
  rewrite availableWrite_run in H.
  match type of H with context [Z.min size ?a] =>
    generalize dependent (Z.min size a); intros n0 H end.
  destruct (n0 =? 0).
  { unfold ret in H. simplify_eq. split; [assumption|]. split; [reflexivity | simpl; lia]. }
  unfold bind at 1 2 in H. unfold load_writeIndex at 1, get_capacity at 1 in H.
  generalize dependent (Z.min n0 (SizeT.sub (capacity_ b) (writeIndex_ b))).
  intros f H.
  generalize dependent (SizeT.sub n0 f). intros g H.
  destruct Hv as [Hc Hb Hw Hr]. unfold SizeT.fits in Hc.
  unfold_ops. repeat case_match; simplify_eq; bounds;
    cbn [buffer_ capacity_ writeIndex_ readIndex_ length app] in *.
  all: split; [|split; [reflexivity | lia]].
  all: constructor; cbn [buffer_ capacity_ writeIndex_ readIndex_];
    try assumption; try (apply mod_cursor; lia).
  all: rewrite <- Hb; repeat (rewrite blit_length; try lia).
  all: rewrite blit_length; lia.
Qed.

Lemma read_valid b data size r b' l :
  valid b -> read data size b = Done (r, b', l) ->
  valid b' /\ capacity_ b' = capacity_ b /\ buffer_ b' = buffer_ b /\
  (length l <= 2)%nat.
Proof.
  intros Hv H. unfold read in H. unfold bind at 1 in H.
  rewrite availableRead_run in H.
  match type of H with context [Z.min size ?a] =>
    generalize dependent (Z.min size a); intros n0 H end.
  destruct (n0 =? 0).
  { unfold ret in H. simplify_eq.
    split; [assumption|]. repeat split; simpl; lia. }
  unfold bind at 1 2 in H. unfold load_readIndex at 1, get_capacity at 1 in H.
  generalize dependent (Z.min n0 (SizeT.sub (capacity_ b) (readIndex_ b))).
  intros f H.
  generalize dependent (SizeT.sub n0 f). intros g H.
  destruct Hv as [Hc Hb Hw Hr]. unfold SizeT.fits in Hc.
  unfold_ops. repeat case_match; simplify_eq; bounds;
    cbn [buffer_ capacity_ writeIndex_ readIndex_ length app] in *.
  all: split; [|split; [reflexivity | split; [reflexivity | lia]]].
  all: constructor; cbn [buffer_ capacity_ writeIndex_ readIndex_];
    try assumption; apply mod_cursor; lia.
Qed.

Lemma reset_run b :
  valid b ->
  reset b =
  Done (tt,
        mkCircularBuffer (replicate (Z.to_nat (capacity_ b)) x00)
          (capacity_ b) 0 0,
        []).
Proof.
  intros [Hc Hb Hw Hr]. unfold SizeT.fits in Hc.
  unfold reset. unfold_ops. cbn [buffer_ capacity_ writeIndex_ readIndex_].
  rewrite (proj2 (in_bounds_true (buffer_ b) 0 (capacity_ b))) by lia.
  rewrite drop_ge by (unfold len in Hb; lia).
  rewrite app_nil_r. reflexivity.
Qed.

Lemma len_replicate n x : 0 <= n -> len (replicate (Z.to_nat n) x) = n.
Proof. intros. unfold len. rewrite length_replicate. lia. Qed.

Lemma zeroed_valid C : SizeT.fits C ->
  valid (mkCircularBuffer (replicate (Z.to_nat C) x00) C 0 0).
Proof.
  intros H. unfold SizeT.fits in H.
  constructor; cbn [buffer_ capacity_ writeIndex_ readIndex_];
    [assumption | apply len_replicate; lia | lia | lia].
Qed.

Lemma new_CircularBuffer_run alloc capacity b :
  new_CircularBuffer alloc capacity = Constructed b ->
  alloc 16 capacity = 0 /\
  b = mkCircularBuffer (replicate (Z.to_nat capacity) x00) capacity 0 0.
Proof.
  unfold new_CircularBuffer. intros H.
  destruct (alloc 16 capacity =? 0) eqn:E; simpl in H; [|discriminate].
  apply Z.eqb_eq in E. split; [assumption | congruence].
Qed.

Lemma reachable_valid alloc b : reachable alloc b -> valid b.
Proof.
  induction 1 as [C b HC Hnew | b data size n b' l _ IH _ Hw
                 | b data size r b' l _ IH _ Hr | b b' l _ IH Hreset].
  - apply new_CircularBuffer_run in Hnew as [_ ->]. apply zeroed_valid, HC.
  - eapply write_valid in Hw; [tauto | exact IH].
  - eapply read_valid in Hr; [tauto | exact IH].
  - rewrite (reset_run _ IH) in Hreset. simplify_eq.
    apply zeroed_valid, IH.
Qed.


(** ** Returned counts and performed copies *)

Lemma sub_range a b : 0 <= SizeT.sub a b <= SizeT.SIZE_MAX.
Proof.
  unfold SizeT.sub, SizeT.wrap, SizeT.SIZE_MAX.
  pose proof (Z.mod_pos_bound (a - b) SizeT.modulus eq_refl). lia.
Qed.

Lemma availableWrite_range b a b' l :
  availableWrite b = Done (a, b', l) -> 0 <= a <= SizeT.SIZE_MAX.
Proof.
  rewrite availableWrite_run. intros [= <- <- <-].
  destruct (writeIndex_ b >=? readIndex_ b); apply sub_range.
Qed.

Lemma availableRead_range b a b' l :
  availableRead b = Done (a, b', l) -> 0 <= a <= SizeT.SIZE_MAX.
Proof.
  rewrite availableRead_run. intros [= <- <- <-].
  destruct (writeIndex_ b >=? readIndex_ b); apply sub_range.
Qed.

Lemma write_returns b data size n b' l :
  0 <= size -> write data size b = Done (n, b', l) -> 0 <= n <= size.
Proof.
  intros Hs H. unfold write in H. unfold bind at 1 in H.
  destruct (availableWrite b) as [[[a b0] l0]|] eqn:Ea; [|discriminate].
  apply availableWrite_range in Ea.
  destruct (Z.min size a =? 0).
  { unfold ret in H. simplify_eq. lia. }
  unfold_ops. repeat case_match; simplify_eq; lia.
Qed.

Lemma write_copies b data size n b' l :
  write data size b = Done (n, b', l) ->
  (length l <= 2)%nat /\ Forall (inside_storage (len (buffer_ b))) l.
Proof.
  intros H. unfold write in H. unfold bind at 1 in H.
  rewrite availableWrite_run in H.
  match type of H with context [Z.min size ?a] =>
    generalize dependent (Z.min size a); intros n0 H end.
  destruct (n0 =? 0).
  { unfold ret in H. simplify_eq. split; [simpl; lia | constructor]. }
  unfold bind at 1 2 in H. unfold load_writeIndex at 1, get_capacity at 1 in H.
  generalize dependent (Z.min n0 (SizeT.sub (capacity_ b) (writeIndex_ b))).
  intros f H.
  generalize dependent (SizeT.sub n0 f). intros g H.
  unfold_ops. repeat case_match; simplify_eq; bounds;
    cbn [buffer_ capacity_ writeIndex_ readIndex_ length app] in *.
  all: split; [lia|].
  all: repeat constructor; try lia.
  rewrite blit_length in * by lia. lia.
Qed.

Lemma reachable_allocated alloc b :
  reachable alloc b -> alloc 16 (capacity_ b) = 0.
Proof.
  induction 1 as [C b HC Hnew | b data size n b' l Hb IH _ Hw
                 | b data size r b' l Hb IH _ Hr | b b' l Hb IH Hreset].
  - apply new_CircularBuffer_run in Hnew as [Hok ->]. exact Hok.
  - apply reachable_valid in Hb. eapply write_valid in Hw; [|exact Hb].
    destruct Hw as (_ & -> & _). exact IH.
  - apply reachable_valid in Hb. eapply read_valid in Hr; [|exact Hb].
    destruct Hr as (_ & -> & _). exact IH.
  - apply reachable_valid in Hb. rewrite (reset_run _ Hb) in Hreset.
    simplify_eq. exact IH.
Qed.

Lemma small_memalign_limit alignment size :
  small_memalign alignment size = 0 -> size <= SizeT.PTRDIFF_MAX.
Proof.
  unfold small_memalign, SizeT.PTRDIFF_MAX.
  destruct (size <=? 65536) eqn:E; [|discriminate].
  apply Z.leb_le in E. lia.
Qed.

Lemma byte_at_of_nat l i : byte_at l (Z.of_nat i) = l !! i.
Proof. unfold byte_at. rewrite Nat2Z.id. reflexivity. Qed.

(** ** Calls that transfer nothing *)

Lemma read_nothing b data size :
  0 <= size -> availableRead b = Done (0, b, []) ->
  read data size b = Done ((data, 0), b, []).
Proof.
  intros Hs H. unfold read. unfold bind at 1. rewrite H.
  rewrite Z.min_r by lia. reflexivity.
Qed.

Lemma write_nothing b data size :
  0 <= size -> availableWrite b = Done (0, b, []) ->
  write data size b = Done (0, b, []).
Proof.
  intros Hs H. unfold write. unfold bind at 1. rewrite H.
  rewrite Z.min_r by lia. reflexivity.
Qed.

Lemma write_size_zero b data : write data 0 b = Done (0, b, []).
Proof.
  unfold write. unfold bind at 1.
  destruct (availableWrite b) as [[[a b0] l0]|] eqn:Ea;
    [|rewrite availableWrite_run in Ea; discriminate].
  pose proof (availableWrite_range _ _ _ _ Ea).
  rewrite availableWrite_run in Ea. injection Ea as _ <- <-.
  rewrite Z.min_l by lia. reflexivity.
Qed.

Lemma read_size_zero b data : read data 0 b = Done ((data, 0), b, []).
Proof.
  unfold read. unfold bind at 1.
  destruct (availableRead b) as [[[a b0] l0]|] eqn:Ea;
    [|rewrite availableRead_run in Ea; discriminate].
  pose proof (availableRead_range _ _ _ _ Ea).
  rewrite availableRead_run in Ea. injection Ea as _ <- <-.
  rewrite Z.min_l by lia. reflexivity.
Qed.

Lemma valid_cursors b :
  valid b -> 1 <= capacity_ b ->
  0 <= writeIndex_ b < capacity_ b /\ 0 <= readIndex_ b < capacity_ b.
Proof. intros [Hc Hb Hw Hr] H1. lia. Qed.


(** ** The stored bytes *)

Lemma stored_length b :
  valid b -> 1 <= capacity_ b ->
  len (stored b) = (writeIndex_ b - readIndex_ b) mod capacity_ b.
Proof.
  intros Hv H1. pose proof (valid_cursors b Hv H1) as [Hw Hr].
  destruct Hv as [_ Hb _ _].
  pose proof (Z.mod_pos_bound (writeIndex_ b - readIndex_ b) (capacity_ b)
                ltac:(lia)).
  unfold stored, len in *.
  rewrite length_take, length_app, length_drop, length_take. lia.
Qed.

Lemma stored_at b i :
  valid b -> 1 <= capacity_ b ->
  0 <= i < (writeIndex_ b - readIndex_ b) mod capacity_ b ->
  byte_at (stored b) i
  = byte_at (buffer_ b) ((readIndex_ b + i) mod capacity_ b).
Proof.
  intros Hv H1 Hi. pose proof (valid_cursors b Hv H1) as [Hw Hr].
  destruct Hv as [_ Hb _ _].
  pose proof (Z.mod_pos_bound (writeIndex_ b - readIndex_ b) (capacity_ b)
                ltac:(lia)).
  rewrite ring_position by lia.
  unfold stored, byte_at, len in *.
  rewrite lookup_take_lt by lia.
  destruct (readIndex_ b + i <? capacity_ b) eqn:E.
  - apply Z.ltb_lt in E.
    rewrite lookup_app_l by (rewrite length_drop; lia).
    rewrite lookup_drop. f_equal. lia.
  - apply Z.ltb_ge in E.
    rewrite lookup_app_r by (rewrite length_drop; lia).
    rewrite length_drop, lookup_take_lt by lia. f_equal. lia.
Qed.

Lemma distance_after_write w r n C :
  0 <= w < C -> 0 <= r < C -> 0 <= n -> (w - r) mod C + n < C ->
  ((w + n) mod C - r) mod C = (w - r) mod C + n.
Proof.
  intros Hw Hr Hn Hlt.
  pose proof (Z.mod_pos_bound (w - r) C ltac:(lia)).
  rewrite Zminus_mod_idemp_l.
  replace (w + n - r) with ((w - r) + n) by lia.
  rewrite <- Zplus_mod_idemp_l. apply Z.mod_small. lia.
Qed.

Lemma distance_after_read w r n C :
  0 <= w < C -> 0 <= r < C -> 0 <= n <= (w - r) mod C ->
  (w - (r + n) mod C) mod C = (w - r) mod C - n.
Proof.
  intros Hw Hr Hn.
  pose proof (Z.mod_pos_bound (w - r) C ltac:(lia)).
  rewrite Zminus_mod_idemp_r.
  replace (w - (r + n)) with ((w - r) - n) by lia.
  rewrite <- Zminus_mod_idemp_l. apply Z.mod_small. lia.
Qed.

Lemma position_of_new w r i C :
  0 <= w < C -> 0 <= r < C ->
  (w - r) mod C <= i < C ->
  (r + i) mod C = (w + (i - (w - r) mod C)) mod C.
Proof.
  intros Hw Hr Hi.
  pose proof (Z.mod_pos_bound (w - r) C ltac:(lia)).
  rewrite (ring_position r i) by lia.
  rewrite ring_distance in * by lia.
  destruct (w >=? r) eqn:E;
    [apply Z.geb_le in E | rewrite Z.geb_leb in E; apply Z.leb_gt in E].
  - rewrite ring_position by lia.
    replace (w + (i - (w - r))) with (r + i) by lia. reflexivity.
  - rewrite ring_position by lia.
    destruct (r + i <? C) eqn:E1; destruct (w + (i - (C - (r - w))) <? C) eqn:E2;
      bounds; lia.
Qed.

Lemma position_of_old w r i n C :
  0 <= w < C -> 0 <= r < C ->
  0 <= i < (w - r) mod C -> (w - r) mod C + n < C ->
  n <= ((r + i) mod C - w) mod C.
Proof.
  intros Hw Hr Hi Hn.
  rewrite Zminus_mod_idemp_l.
  pose proof (ring_distance w r C Hw Hr) as Hd.
  destruct (Z_lt_ge_dec (r + i - w) 0) as [Hneg|Hpos].
  - rewrite <- (Z.mod_unique (r + i - w) C (-1) (r + i - w + C));
      destruct (w >=? r); lia.
  - destruct (Z_lt_ge_dec (r + i - w) C) as [Hlt|Hge].
    + rewrite Z.mod_small by lia. destruct (w >=? r); lia.
    + rewrite <- (Z.mod_unique (r + i - w) C 1 (r + i - w - C));
        destruct (w >=? r); lia.
Qed.

Lemma list_eq_upto (l1 l2 : list byte) :
  length l1 = length l2 ->
  (forall i, (i < length l1)%nat -> l1 !! i = l2 !! i) ->
  l1 = l2.
Proof.
  intros Hlen H. apply list_eq. intros i.
  destruct (Nat.lt_ge_cases i (length l1)) as [Hi|Hi]; [apply H, Hi|].
  rewrite (lookup_ge_None_2 l1), (lookup_ge_None_2 l2) by lia. reflexivity.
Qed.

Lemma write_stored b data size :
  valid b -> 1 <= capacity_ b -> capacity_ b <= SizeT.PTRDIFF_MAX ->
  0 <= size -> size <= len data ->
  exists n b' l,
    write data size b = Done (n, b', l) /\
    n = Z.min size (capacity_ b - 1 - len (stored b)) /\
    valid b' /\ capacity_ b' = capacity_ b /\
    stored b' = stored b ++ take (Z.to_nat n) data.
Proof.
  intros Hv H1 Hmax Hs Hdata.
  pose proof (valid_cursors b Hv H1) as [Hw Hr].
  pose proof (Z.mod_pos_bound (writeIndex_ b - readIndex_ b) (capacity_ b)
                ltac:(lia)) as Hd.
  pose proof (stored_length b Hv H1) as Hlen.
  pose proof (write_run b data size Hv H1 Hs) as Hwrite.
  cbv zeta in Hwrite. rewrite <- Hlen in Hwrite.
  set (n := Z.min size (capacity_ b - 1 - len (stored b))) in *.
  specialize (Hwrite ltac:(lia)).
  destruct (write_valid _ _ _ _ _ _ Hv Hwrite) as (Hv' & HC' & _).
  do 3 eexists. split; [exact Hwrite|]. split; [reflexivity|].
  split; [exact Hv'|]. split; [exact HC'|].
  destruct (n =? 0) eqn:E0; bounds.
  { rewrite E0. simpl. rewrite app_nil_r. reflexivity. }
  assert (SizeT.add (writeIndex_ b) n = writeIndex_ b + n) as Hadd.
  { unfold SizeT.add. apply wrap_small.
    unfold SizeT.PTRDIFF_MAX in Hmax. unfold SizeT.modulus. lia. }
  rewrite Hadd in *.
  match goal with |- stored ?x = _ => set (b' := x) in * end.
  assert (1 <= capacity_ b') as H1' by (rewrite HC'; lia).
  pose proof (stored_length b' Hv' H1') as Hlen'.
  cbn [b' buffer_ capacity_ writeIndex_ readIndex_] in Hlen'.
  rewrite distance_after_write in Hlen' by lia.
  assert (len (buffer_ b) = capacity_ b) as Hbuf by (destruct Hv; assumption).
  apply list_eq_upto.
  - rewrite length_app, length_take. unfold len in *. lia.
  - intros i Hi. rewrite <- !byte_at_of_nat.
    assert (0 <= Z.of_nat i < (writeIndex_ b - readIndex_ b) mod capacity_ b + n)
      as Hi' by (unfold len in Hlen'; lia).
    rewrite stored_at
      by (try assumption;
          cbn [b' buffer_ capacity_ writeIndex_ readIndex_];
          rewrite distance_after_write; lia).
    cbn [b' buffer_ capacity_ writeIndex_ readIndex_].
    destruct (Z_lt_ge_dec (Z.of_nat i)
                ((writeIndex_ b - readIndex_ b) mod capacity_ b)) as [Hold|Hnew].
    + rewrite put_untouched;
        [| lia | lia | lia | lia
         | apply Z.mod_pos_bound; lia
         | apply position_of_old; lia].
      rewrite <- stored_at by (assumption || lia).
      rewrite !byte_at_of_nat.
      rewrite lookup_app_l by (unfold len in Hlen; lia). reflexivity.
    + rewrite (position_of_new (writeIndex_ b) (readIndex_ b)) by lia.
      rewrite put_written by lia.
      rewrite byte_at_of_nat.
      rewrite lookup_app_r by (unfold len in Hlen; lia).
      rewrite lookup_take_lt by (unfold len in Hlen; lia).
      unfold byte_at. f_equal. unfold len in Hlen. lia.
Qed.

Lemma read_stored b dest size :
  valid b -> 1 <= capacity_ b -> capacity_ b <= SizeT.PTRDIFF_MAX ->
  0 <= size -> size <= len dest ->
  exists n dest' b' l,
    read dest size b = Done ((dest', n), b', l) /\
    n = Z.min size (len (stored b)) /\
    valid b' /\ capacity_ b' = capacity_ b /\
    take (Z.to_nat n) dest' = take (Z.to_nat n) (stored b) /\
    stored b' = drop (Z.to_nat n) (stored b).
Proof.
  intros Hv H1 Hmax Hs Hdest.
  pose proof (valid_cursors b Hv H1) as [Hw Hr].
  pose proof (Z.mod_pos_bound (writeIndex_ b - readIndex_ b) (capacity_ b)
                ltac:(lia)) as Hd.
  pose proof (stored_length b Hv H1) as Hlen.
  pose proof (read_run b dest size Hv H1 Hs) as Hread.
  cbv zeta in Hread. rewrite <- Hlen in Hread.
  set (n := Z.min size (len (stored b))) in *.
  specialize (Hread ltac:(lia)).
  destruct (read_valid _ _ _ _ _ _ Hv Hread) as (Hv' & HC' & _).
  do 4 eexists. split; [exact Hread|]. split; [reflexivity|].
  split; [exact Hv'|]. split; [exact HC'|].
  destruct (n =? 0) eqn:E0; bounds.
  { rewrite E0. simpl. split; reflexivity. }
  assert (SizeT.add (readIndex_ b) n = readIndex_ b + n) as Hadd.
  { unfold SizeT.add. apply wrap_small.
    unfold SizeT.PTRDIFF_MAX in Hmax. unfold SizeT.modulus. lia. }
  rewrite Hadd in *.
  assert (len (buffer_ b) = capacity_ b) as Hbuf by (destruct Hv; assumption).
  split.
  - apply list_eq_upto.
    + rewrite !length_take.
      pose proof (get_length dest (buffer_ b) (readIndex_ b) n (capacity_ b)
                    Hbuf Hr ltac:(lia) ltac:(lia)) as Hget.
      unfold len in *. lia.
    + intros i Hi. rewrite length_take in Hi.
      rewrite !lookup_take_lt by lia.
      rewrite <- !byte_at_of_nat.
      rewrite get_read by lia.
      rewrite stored_at by (assumption || lia). reflexivity.
  - match goal with |- stored ?x = _ => set (b' := x) in * end.
    assert (1 <= capacity_ b') as H1' by (rewrite HC'; lia).
    pose proof (stored_length b' Hv' H1') as Hlen'.
    cbn [b' buffer_ capacity_ writeIndex_ readIndex_] in Hlen'.
    rewrite distance_after_read in Hlen' by lia.
    apply list_eq_upto.
    + rewrite length_drop. unfold len in *. lia.
    + intros i Hi. rewrite lookup_drop.
      rewrite <- !byte_at_of_nat.
      rewrite stored_at
        by (try assumption;
            cbn [b' buffer_ capacity_ writeIndex_ readIndex_];
            rewrite distance_after_read; unfold len in *; lia).
      rewrite stored_at by (try assumption; unfold len in *; lia).
      cbn [b' buffer_ capacity_ writeIndex_ readIndex_].
      rewrite Zplus_mod_idemp_l. do 2 f_equal. lia.
Qed.

Lemma run_fifo calls :
  forall b accepted delivered,
    valid b -> 1 <= capacity_ b -> capacity_ b <= SizeT.PTRDIFF_MAX ->
    Forall well_formed calls ->
    delivered ++ stored b = accepted ->
    exists b' accepted' delivered',
      run calls b accepted delivered = Done (b', accepted', delivered') /\
      valid b' /\ capacity_ b' = capacity_ b /\
      delivered' ++ stored b' = accepted'.
Proof.
  induction calls as [|c rest IH]; intros b acc del Hv H1 Hmax Hwf Hinv.
  - exists b, acc, del. split; [reflexivity|]. split; [exact Hv|].
    split; [reflexivity | exact Hinv].
  - apply Forall_cons in Hwf as [Hc Hrest].
    destruct c as [data size|data size];
      destruct Hc as [[Hs _] Hdata]; cbn [run].
    + destruct (write_stored b data size Hv H1 Hmax ltac:(lia) ltac:(lia))
        as (n & b' & l & -> & _ & Hv' & HC' & Hst).
      destruct (IH b' (acc ++ take (Z.to_nat n) data) del Hv'
                  ltac:(lia) ltac:(lia) Hrest)
        as (b'' & acc' & del' & Hrun & Hv'' & HC'' & Hfin).
      { rewrite Hst, app_assoc, Hinv. reflexivity. }
      exists b'', acc', del'. split; [exact Hrun|]. split; [exact Hv''|].
      split; [lia | exact Hfin].
    + destruct (read_stored b data size Hv H1 Hmax ltac:(lia) ltac:(lia))
        as (n & data' & b' & l & -> & _ & Hv' & HC' & Htake & Hst).
      destruct (IH b' acc (del ++ take (Z.to_nat n) data') Hv'
                  ltac:(lia) ltac:(lia) Hrest)
        as (b'' & acc' & del' & Hrun & Hv'' & HC'' & Hfin).
      { rewrite Hst, Htake, <- app_assoc, take_drop. exact Hinv. }
      exists b'', acc', del'. split; [exact Hrun|]. split; [exact Hv''|].
      split; [lia | exact Hfin].
Qed.

(** ** The example buffers are reachable *)

Lemma fits_small n : 0 <= n <= 65536 -> SizeT.fits n.
Proof. unfold SizeT.fits, SizeT.SIZE_MAX, SizeT.modulus. lia. Qed.

Lemma fresh8_reachable : reachable small_memalign fresh8.
Proof. apply (reach_new small_memalign 8); [apply fits_small; lia | reflexivity]. Qed.

Lemma holding2_reachable : reachable small_memalign holding2.
Proof.
  apply (reach_write small_memalign fresh8 [x01; x02] 2 2 holding2
           [Memcpy (Storage 0) (Caller 0) 2]);
    [exact fresh8_reachable | apply fits_small; lia | reflexivity].
Qed.

Lemma full8_reachable : reachable small_memalign full8.
Proof.
  apply (reach_write small_memalign fresh8
           [x01; x02; x03; x04; x05; x06; x07; x08] 8 7 full8
           [Memcpy (Storage 0) (Caller 0) 7]);
    [exact fresh8_reachable | apply fits_small; lia | reflexivity].
Qed.

Lemma drained6_reachable : reachable small_memalign drained6.
Proof.
  apply (reach_read small_memalign
           (mkCircularBuffer [x01; x02; x03; x04; x05; x06; x00; x00] 8 6 0)
           [x00; x00; x00; x00; x00; x00] 6
           ([x01; x02; x03; x04; x05; x06], 6) drained6
           [Memcpy (Caller 0) (Storage 0) 6]);
    [|apply fits_small; lia | reflexivity].
  apply (reach_write small_memalign fresh8
           [x01; x02; x03; x04; x05; x06] 6 6 _
           [Memcpy (Storage 0) (Caller 0) 6]);
    [exact fresh8_reachable | apply fits_small; lia | reflexivity].
Qed.

Lemma wrapped_reachable : reachable small_memalign wrapped.
Proof.
  apply (reach_write small_memalign drained6
           [x07; x08; x09; x0a; x0b] 5 5 wrapped
           [Memcpy (Storage 6) (Caller 0) 2; Memcpy (Storage 0) (Caller 2) 3]);
    [exact drained6_reachable | apply fits_small; lia | reflexivity].
Qed.

(** ** Properties of the design document *)

Section Properties.

Variable posix_memalign : Z -> Z -> Z.

(** No object is larger than [PTRDIFF_MAX] bytes: the allocator refuses
    a larger request.  With it, an index plus a byte count never wraps
    around [size_t]. *)
Hypothesis posix_memalign_limit :
  forall alignment size,
    posix_memalign alignment size = 0 -> size <= SizeT.PTRDIFF_MAX.

Lemma reachable_capacity b :
  reachable posix_memalign b -> capacity_ b <= SizeT.PTRDIFF_MAX.
Proof. intros H. eapply posix_memalign_limit, reachable_allocated, H. Qed.

(** C3.  For every buffer of capacity C >= 1, in every state reachable by
    construction, [write], [read] and [reset], both indices lie in
    [0, C), and the number of stored bytes, (writeIndex - readIndex) mod C,
    which is what [availableRead] returns, lies in [0, C - 1] and so is
    never C. *)
Theorem cursors_in_range b :
  reachable posix_memalign b -> 1 <= capacity_ b ->
  0 <= writeIndex_ b < capacity_ b /\
  0 <= readIndex_ b < capacity_ b /\
  0 <= (writeIndex_ b - readIndex_ b) mod capacity_ b <= capacity_ b - 1 /\
  (writeIndex_ b - readIndex_ b) mod capacity_ b <> capacity_ b /\
  availableRead b =
    Done ((writeIndex_ b - readIndex_ b) mod capacity_ b, b, []).
Proof.
  intros Hb H1. apply reachable_valid in Hb.
  pose proof (valid_cursors b Hb H1) as [Hw Hr].
  pose proof (Z.mod_pos_bound (writeIndex_ b - readIndex_ b) (capacity_ b)
                ltac:(lia)).
  repeat split; try lia. apply availableRead_valid; assumption.
Qed.

(** C4.  In every reachable state, between two calls, [availableRead]
    returns (writeIndex - readIndex) mod capacity, [availableWrite] returns
    capacity - 1 - availableRead, and the two add up to capacity - 1.  The
    equalities are those of [size_t]; for a capacity of at least 1 nothing
    wraps and they are equalities of integers. *)
Theorem available_accounting b :
  reachable posix_memalign b ->
  exists ar aw,
    availableRead b = Done (ar, b, []) /\
    availableWrite b = Done (aw, b, []) /\
    ar = (writeIndex_ b - readIndex_ b) mod capacity_ b /\
    aw = SizeT.sub (SizeT.sub (capacity_ b) 1) ar /\
    SizeT.add ar aw = SizeT.sub (capacity_ b) 1 /\
    (1 <= capacity_ b ->
     aw = capacity_ b - 1 - ar /\ ar + aw = capacity_ b - 1).
Proof.
  intros Hb. apply reachable_valid in Hb.
  destruct (Z_lt_ge_dec (capacity_ b) 1) as [H0|H1].
  - destruct Hb as [Hc Hbuf Hw Hr]. unfold SizeT.fits in Hc.
    assert (capacity_ b = 0) as HC by lia.
    assert (writeIndex_ b = 0) as HW by lia.
    assert (readIndex_ b = 0) as HR by lia.
    rewrite availableRead_run, availableWrite_run, HC, HW, HR.
    do 2 eexists. repeat split; try reflexivity. all: lia.
  - assert (1 <= capacity_ b) as H1' by lia.
    pose proof (valid_cursors b Hb H1') as [Hw Hr].
    pose proof (Z.mod_pos_bound (writeIndex_ b - readIndex_ b) (capacity_ b)
                  ltac:(lia)) as Hd.
    rewrite availableRead_valid, availableWrite_valid by assumption.
    destruct Hb as [Hc _ _ _]. unfold SizeT.fits, SizeT.SIZE_MAX in Hc.
    do 2 eexists. split; [reflexivity|]. split; [reflexivity|].
    split; [reflexivity|].
    unfold SizeT.add, SizeT.sub.
    rewrite (wrap_small (capacity_ b - 1)) by lia.
    rewrite (wrap_small (capacity_ b - 1 - _)) by lia.
    rewrite wrap_small by lia.
    repeat split; lia.
Qed.

(** C8.  For every capacity C >= 2, right after construction and right
    after [reset] in any reachable state, both indices are 0, every byte
    of the storage is zero, [availableRead] returns 0 and [availableWrite]
    returns C - 1. *)
Theorem pristine_after_construction_and_reset C :
  2 <= C -> SizeT.fits C ->
  (forall b,
      new_CircularBuffer posix_memalign C = Constructed b ->
      capacity_ b = C /\ writeIndex_ b = 0 /\ readIndex_ b = 0 /\
      buffer_ b = replicate (Z.to_nat C) x00 /\
      (forall i, 0 <= i < C -> byte_at (buffer_ b) i = Some x00) /\
      availableRead b = Done (0, b, []) /\
      availableWrite b = Done (C - 1, b, [])) /\
  (forall b,
      reachable posix_memalign b -> capacity_ b = C ->
      exists b',
        reset b = Done (tt, b', []) /\
        capacity_ b' = C /\ writeIndex_ b' = 0 /\ readIndex_ b' = 0 /\
        buffer_ b' = replicate (Z.to_nat C) x00 /\
        (forall i, 0 <= i < C -> byte_at (buffer_ b') i = Some x00) /\
        availableRead b' = Done (0, b', []) /\
        availableWrite b' = Done (C - 1, b', [])).
Proof.
  intros H2 HC.
  assert (forall b, b = mkCircularBuffer (replicate (Z.to_nat C) x00) C 0 0 ->
            capacity_ b = C /\ writeIndex_ b = 0 /\ readIndex_ b = 0 /\
            buffer_ b = replicate (Z.to_nat C) x00 /\
            (forall i, 0 <= i < C -> byte_at (buffer_ b) i = Some x00) /\
            availableRead b = Done (0, b, []) /\
            availableWrite b = Done (C - 1, b, [])) as Hzero.
  { intros b ->. pose proof (zeroed_valid C HC) as Hv.
    rewrite availableRead_valid, availableWrite_valid
      by first [exact Hv | simpl; lia].
    cbn [buffer_ capacity_ writeIndex_ readIndex_].
    rewrite Z.sub_diag, Z.mod_0_l, Z.sub_0_r by lia.
    repeat split. intros i Hi. unfold byte_at.
    apply lookup_replicate_2. lia. }
  split.
  - intros b Hnew. apply new_CircularBuffer_run in Hnew as [_ Hb].
    apply Hzero, Hb.
  - intros b Hb <-. apply reachable_valid in Hb.
    eexists. split; [apply reset_run, Hb|]. apply Hzero. reflexivity.
Qed.

(** C1, amended.  For every reachable buffer of capacity C >= 2 and every
    byte sequence of length N with N <= [availableWrite], [write] of the N
    bytes returns N, and an immediately following [read] of N bytes
    returns N and delivers the N oldest of the bytes then held: those
    stored before the write, followed by the written ones.  When the
    buffer was empty before the write ([availableRead] returns 0) these
    are exactly the written bytes, in order. *)
Theorem roundtrip_delivers_oldest b data dest aw :
  reachable posix_memalign b -> 2 <= capacity_ b ->
  availableWrite b = Done (aw, b, []) ->
  len data <= aw -> len data <= len dest ->
  exists b1 l1 dest' b2 l2,
    write data (len data) b = Done (len data, b1, l1) /\
    read dest (len data) b1 = Done ((dest', len data), b2, l2) /\
    take (length data) dest' = take (length data) (stored b ++ data) /\
    (availableRead b = Done (0, b, []) -> take (length data) dest' = data).
Proof.
  intros Hb H2 Haw Hn Hd.
  pose proof (reachable_capacity b Hb) as Hmax.
  apply reachable_valid in Hb.
  assert (1 <= capacity_ b) as H1 by lia.
  pose proof (stored_length b Hb H1) as Hlen.
  rewrite availableWrite_valid in Haw by assumption.
  injection Haw as Haw. rewrite <- Hlen in Haw.
  assert (0 <= len data) as H0 by (unfold len; lia).
  destruct (write_stored b data (len data) Hb H1 Hmax H0 ltac:(lia))
    as (n & b1 & l1 & Hwrite & Hcount & Hv1 & HC1 & Hst1).
  rewrite Z.min_l in Hcount by lia. subst n.
  assert (take (Z.to_nat (len data)) data = data) as Hall
    by (apply take_ge; unfold len; lia).
  rewrite Hall in Hst1.
  destruct (read_stored b1 dest (len data) Hv1 ltac:(lia) ltac:(lia) H0 Hd)
    as (n & dest' & b2 & l2 & Hread & Hcount & _ & _ & Htake & _).
  assert (len (stored b1) = len (stored b) + len data) as Hlen1
    by (rewrite Hst1; unfold len; rewrite length_app; lia).
  rewrite Z.min_l in Hcount
    by (rewrite Hlen1; unfold len; lia).
  subst n.
  replace (Z.to_nat (len data)) with (length data) in Htake
    by (unfold len; lia).
  exists b1, l1, dest', b2, l2.
  split; [exact Hwrite|]. split; [exact Hread|].
  rewrite Htake, Hst1. split; [reflexivity|].
  intros Har. rewrite availableRead_valid in Har by assumption.
  injection Har as Hempty. rewrite <- Hlen in Hempty.
  assert (stored b = []) as ->
    by (apply length_zero_iff_nil; unfold len in Hempty; lia).
  apply take_ge. simpl. lia.
Qed.

(** C2.  For every reachable buffer of capacity C >= 2 and every call
    [write(data, size)] with size > [availableWrite], the call returns
    [availableWrite], puts exactly that many bytes of [data] into the
    storage, circularly from the write index, leaves every other byte of
    the storage as it was, and every [memcpy] it performs writes inside
    the storage.  For every call of [write] the returned count lies between
    0 and [size]. *)
Theorem write_saturates b data size aw :
  reachable posix_memalign b -> 2 <= capacity_ b ->
  SizeT.fits size ->
  availableWrite b = Done (aw, b, []) ->
  aw < size -> size <= len data ->
  (exists b' l,
      write data size b = Done (aw, b', l) /\
      0 <= aw <= size /\
      (forall i, 0 <= i < aw ->
         byte_at (buffer_ b') ((writeIndex_ b + i) mod capacity_ b)
         = byte_at data i) /\
      (forall p, 0 <= p < capacity_ b ->
         aw <= (p - writeIndex_ b) mod capacity_ b ->
         byte_at (buffer_ b') p = byte_at (buffer_ b) p) /\
      len (buffer_ b') = capacity_ b /\
      Forall (inside_storage (capacity_ b)) l /\
      capacity_ b' = capacity_ b /\
      readIndex_ b' = readIndex_ b /\
      writeIndex_ b' = (writeIndex_ b + aw) mod capacity_ b) /\
  (forall data' size' n b' l,
      SizeT.fits size' ->
      write data' size' b = Done (n, b', l) ->
      0 <= n <= size' /\
      Forall (inside_storage (capacity_ b)) l /\
      len (buffer_ b') = capacity_ b).
Proof.
  intros Hb H2 [Hs _] Haw Hlt Hdata.
  pose proof (reachable_capacity b Hb) as Hmax.
  apply reachable_valid in Hb.
  pose proof (valid_cursors b Hb ltac:(lia)) as [Hw Hr].
  assert (len (buffer_ b) = capacity_ b) as Hlen by (destruct Hb; assumption).
  split.
  - pose proof (availableWrite_range _ _ _ _ Haw) as [Haw0 _].
    rewrite availableWrite_valid in Haw by (assumption || lia).
    injection Haw as Haw.
    pose proof (Z.mod_pos_bound (writeIndex_ b - readIndex_ b) (capacity_ b)
                  ltac:(lia)) as Hd.
    pose proof (write_run b data size Hb ltac:(lia) Hs) as Hwrite.
    cbv zeta in Hwrite. rewrite Haw, Z.min_r in Hwrite by lia.
    specialize (Hwrite ltac:(lia)).
    do 2 eexists. split; [exact Hwrite|].
    destruct (write_valid _ _ _ _ _ _ Hb Hwrite) as (Hv1 & HC1 & _).
    destruct (write_copies _ _ _ _ _ _ Hwrite) as (_ & Hin).
    rewrite Hlen in Hin.
    split; [lia|].
    destruct (aw =? 0) eqn:E0.
    + apply Z.eqb_eq in E0.
      repeat split; try assumption; try lia.
      rewrite E0, Z.add_0_r, Z.mod_small by lia. reflexivity.
    + apply Z.eqb_neq in E0.
      cbn [buffer_ capacity_ writeIndex_ readIndex_].
      split; [intros i Hi; apply put_written; lia|].
      split; [intros p Hp Hout; apply put_untouched; lia|].
      split; [rewrite put_length; lia|].
      split; [exact Hin|].
      repeat split. unfold SizeT.add. rewrite wrap_small; [reflexivity|].
      unfold SizeT.PTRDIFF_MAX in Hmax. unfold SizeT.modulus. lia.
  - intros data' size' n b' l [Hs' _] Hwrite.
    split; [eapply write_returns; eassumption|].
    destruct (write_copies _ _ _ _ _ _ Hwrite) as (_ & Hin).
    rewrite Hlen in Hin. split; [exact Hin|].
    destruct (write_valid _ _ _ _ _ _ Hb Hwrite) as ([_ Hbuf _ _] & HC1 & _).
    lia.
Qed.

(** C6.  With capacity 8, after writing 6 bytes and reading them back both
    indices are 6; a write of 5 bytes then performs two copies, 2 bytes to
    offsets 6..7 of the storage and 3 bytes to offsets 0..2, and a read of
    5 bytes returns those 5 bytes in order.  No call of [write] performs
    more than two copies. *)
Theorem wrap_around_at_capacity_8 b0 first second scratch1 scratch2 :
  new_CircularBuffer posix_memalign 8 = Constructed b0 ->
  length first = 6%nat -> length second = 5%nat ->
  length scratch1 = 6%nat -> length scratch2 = 5%nat ->
  (exists b1 l1 b2 l2 b3 b4,
      write first 6 b0 = Done (6, b1, l1) /\
      read scratch1 6 b1 = Done ((first, 6), b2, l2) /\
      writeIndex_ b2 = 6 /\ readIndex_ b2 = 6 /\
      write second 5 b2 =
        Done (5, b3, [Memcpy (Storage 6) (Caller 0) 2;
                      Memcpy (Storage 0) (Caller 2) 3]) /\
      buffer_ b3 = drop 2 second ++ take 3 (drop 3 first) ++ take 2 second /\
      writeIndex_ b3 = 3 /\ readIndex_ b3 = 6 /\
      read scratch2 5 b3 =
        Done ((second, 5), b4, [Memcpy (Caller 0) (Storage 6) 2;
                                Memcpy (Caller 2) (Storage 0) 3])) /\
  (forall b data size n b' l,
      write data size b = Done (n, b', l) -> (length l <= 2)%nat).
Proof.
  intros Hnew H1 H2 H3 H4. split.
  - apply new_CircularBuffer_run in Hnew as [_ ->].
    destruct first as [|a0 [|a1 [|a2 [|a3 [|a4 [|a5 [|]]]]]]];
      try discriminate H1.
    destruct second as [|c0 [|c1 [|c2 [|c3 [|c4 [|]]]]]];
      try discriminate H2.
    destruct scratch1 as [|d0 [|d1 [|d2 [|d3 [|d4 [|d5 [|]]]]]]];
      try discriminate H3.
    destruct scratch2 as [|e0 [|e1 [|e2 [|e3 [|e4 [|]]]]]];
      try discriminate H4.
    do 6 eexists. repeat split.
  - intros b data size n b' l Hwrite.
    apply (write_copies _ _ _ _ _ _ Hwrite).
Qed.

(** X1.  Calls that run one after the other on a fresh buffer never fail, and
    the bytes delivered so far followed by the bytes still stored are the
    bytes accepted so far: reads deliver a prefix of what writes accepted,
    in order. *)
Theorem fifo_sequential capacity b calls :
1 <= capacity -> SizeT.fits capacity ->
new_CircularBuffer posix_memalign capacity = Constructed b ->
Forall well_formed calls ->
exists b' accepted delivered,
  run calls b [] [] = Done (b', accepted, delivered) /\
  accepted = delivered ++ stored b' /\
  delivered `prefix_of` accepted.
Proof.
intros H1 HC Hnew Hwf.
apply new_CircularBuffer_run in Hnew as [Hok ->].
apply posix_memalign_limit in Hok.
destruct (run_fifo calls _ [] [] (zeroed_valid capacity HC) H1 Hok Hwf)
  as (b' & acc & del & Hrun & _ & _ & Hfin).
{ unfold stored. cbn [buffer_ capacity_ writeIndex_ readIndex_].
  rewrite Z.sub_diag, Z.mod_0_l by lia. reflexivity. }
exists b', acc, del. split; [exact Hrun|]. split; [symmetry; exact Hfin|].
exists (stored b'). symmetry. exact Hfin.
Qed.

(** X18.  The capacity-1 half of C5: such a buffer never holds data:
    [availableWrite] is 0, and every [write] and [read] returns 0 and
    changes nothing. *)
Lemma capacity_one_never_holds_data b data size :
  reachable posix_memalign b -> capacity_ b = 1 -> SizeT.fits size ->
  availableWrite b = Done (0, b, []) /\
  write data size b = Done (0, b, []) /\
  read data size b = Done ((data, 0), b, []).
Proof.
  intros Hb HC Hs. apply reachable_valid in Hb.
  pose proof (valid_cursors b Hb ltac:(lia)) as [Hw Hr].
  assert (availableWrite b = Done (0, b, [])) as Haw.
  { rewrite availableWrite_valid by (assumption || lia).
    replace (writeIndex_ b) with 0 by lia.
    replace (readIndex_ b) with 0 by lia.
    rewrite HC. reflexivity. }
  assert (availableRead b = Done (0, b, [])) as Har.
  { rewrite availableRead_valid by (assumption || lia).
    replace (writeIndex_ b) with 0 by lia.
    replace (readIndex_ b) with 0 by lia.
    rewrite HC. reflexivity. }
  split; [exact Haw|]. destruct Hs as [Hs _].
  split; [apply write_nothing | apply read_nothing]; assumption.
Qed.

End Properties.

(** C7.  When nothing can be transferred ([read] while [availableRead] is 0,
    [write] while [availableWrite] is 0, or a call with size 0) the call
    returns 0, performs no copy and leaves the object, both indices and
    every byte of the storage, and the caller's region as they were. *)
Theorem zero_transfer_changes_nothing b data size :
  SizeT.fits size ->
  (availableRead b = Done (0, b, []) ->
   read data size b = Done ((data, 0), b, [])) /\
  (availableWrite b = Done (0, b, []) ->
   write data size b = Done (0, b, [])) /\
  write data 0 b = Done (0, b, []) /\
  read data 0 b = Done ((data, 0), b, []).
Proof.
  intros [Hs _]. repeat split.
  - apply read_nothing, Hs.
  - apply write_nothing, Hs.
  - apply write_size_zero.
  - apply read_size_zero.
Qed.

(** C10.  [availableRead] and [availableWrite] only observe: in every state
    each returns its value, leaves the object unchanged and copies nothing,
    and calling it twice in a row returns the same value twice. *)
Theorem observers_are_pure b :
  (exists v,
      availableRead b = Done (v, b, []) /\
      (let* first := availableRead in
       let* second := availableRead in
       ret (first, second)) b = Done ((v, v), b, [])) /\
  (exists v,
      availableWrite b = Done (v, b, []) /\
      (let* first := availableWrite in
       let* second := availableWrite in
       ret (first, second)) b = Done ((v, v), b, [])).
Proof.
  split; eexists.
  - split; [apply availableRead_run|].
    unfold bind. repeat (rewrite availableRead_run; cbn beta iota).
    reflexivity.
  - split; [apply availableWrite_run|].
    unfold bind. repeat (rewrite availableWrite_run; cbn beta iota).
    reflexivity.
Qed.

(** C5, at capacity 0.  A buffer constructed with capacity 0 reports
    [SIZE_MAX] writable bytes, and a [write] of one byte copies past the end
    of the empty storage: the call is undefined instead of returning 0. *)
Theorem zero_capacity_write_is_undefined :
  exists b,
    new_CircularBuffer small_memalign 0 = Constructed b /\
    availableWrite b = Done (SizeT.SIZE_MAX, b, []) /\
    write [x01] 1 b = Undefined OutOfBounds.
Proof. eexists. repeat split. Qed.

(** ** Counterexample and witnesses *)

(** C1 as stated fails on a buffer that already holds bytes: with two bytes
    stored, writing two more and reading two delivers the older two. *)
Lemma roundtrip_fails_on_stored_bytes :
  exists b data dest aw,
    reachable small_memalign b /\ 2 <= capacity_ b /\
    availableWrite b = Done (aw, b, []) /\
    len data <= aw /\ len data <= len dest /\
    exists b1 l1 dest' b2 l2,
      write data (len data) b = Done (len data, b1, l1) /\
      read dest (len data) b1 = Done ((dest', len data), b2, l2) /\
      take (length data) dest' <> data.
Proof.
  exists holding2, [x03; x04], (blank 2), 5.
  split; [exact holding2_reachable|].
  split; [simpl; lia|]. split; [reflexivity|].
  split; [unfold len; simpl; lia|]. split; [unfold len; simpl; lia|].
  do 5 eexists. split; [reflexivity|]. split; [reflexivity|].
  simpl. discriminate.
Qed.

Lemma roundtrip_delivers_oldest_witness :
  exists b1 l1 dest' b2 l2,
    write five (len five) drained6 = Done (len five, b1, l1) /\
    read (blank 5) (len five) b1 = Done ((dest', len five), b2, l2) /\
    take (length five) dest' = take (length five) (stored drained6 ++ five) /\
    (availableRead drained6 = Done (0, drained6, []) ->
     take (length five) dest' = five).
Proof.
  apply (roundtrip_delivers_oldest small_memalign small_memalign_limit
           drained6 five (blank 5) 7).
  - exact drained6_reachable.
  - simpl. lia.
  - reflexivity.
  - unfold len. simpl. lia.
  - unfold len. simpl. lia.
Defined.

Lemma write_saturates_witness :
  exists b' l,
    write seven 7 holding2 = Done (5, b', l) /\
    len (buffer_ b') = 8 /\
    Forall (inside_storage 8) l /\
    writeIndex_ b' = 7 /\ readIndex_ b' = 0.
Proof.
  destruct (write_saturates small_memalign small_memalign_limit
              holding2 seven 7 5)
    as [(b' & l & Hw & _ & _ & _ & Hlen & Hin & _ & Hr & Hidx) _].
  - exact holding2_reachable.
  - simpl. lia.
  - apply fits_small. lia.
  - reflexivity.
  - lia.
  - unfold len. simpl. lia.
  - exists b', l. repeat split; assumption.
Defined.

Lemma cursors_in_range_witness :
  0 <= writeIndex_ wrapped < capacity_ wrapped /\
  0 <= readIndex_ wrapped < capacity_ wrapped /\
  0 <= (writeIndex_ wrapped - readIndex_ wrapped) mod capacity_ wrapped
    <= capacity_ wrapped - 1 /\
  (writeIndex_ wrapped - readIndex_ wrapped) mod capacity_ wrapped
    <> capacity_ wrapped /\
  availableRead wrapped =
    Done ((writeIndex_ wrapped - readIndex_ wrapped) mod capacity_ wrapped,
          wrapped, []).
Proof.
  apply (cursors_in_range small_memalign wrapped).
  - exact wrapped_reachable.
  - simpl. lia.
Defined.

Lemma available_accounting_witness :
  exists ar aw,
    availableRead wrapped = Done (ar, wrapped, []) /\
    availableWrite wrapped = Done (aw, wrapped, []) /\
    ar = (writeIndex_ wrapped - readIndex_ wrapped) mod capacity_ wrapped /\
    aw = SizeT.sub (SizeT.sub (capacity_ wrapped) 1) ar /\
    SizeT.add ar aw = SizeT.sub (capacity_ wrapped) 1 /\
    (1 <= capacity_ wrapped ->
     aw = capacity_ wrapped - 1 - ar /\ ar + aw = capacity_ wrapped - 1).
Proof.
  apply (available_accounting small_memalign wrapped).
  exact wrapped_reachable.
Defined.

Lemma wrap_around_at_capacity_8_witness :
  exists b3 b4,
    write five 5 drained6 =
      Done (5, b3, [Memcpy (Storage 6) (Caller 0) 2;
                    Memcpy (Storage 0) (Caller 2) 3]) /\
    buffer_ b3 = [x09; x0a; x0b; x04; x05; x06; x07; x08] /\
    read (blank 5) 5 b3 =
      Done ((five, 5), b4, [Memcpy (Caller 0) (Storage 6) 2;
                            Memcpy (Caller 2) (Storage 0) 3]).
Proof.
  destruct (wrap_around_at_capacity_8 small_memalign fresh8 six five
              (blank 6) (blank 5))
    as [(b1 & l1 & b2 & l2 & b3 & b4 &
         H1 & H2 & _ & _ & H3 & Hbuf & _ & _ & H4) _];
    try reflexivity.
  vm_compute in H1. injection H1 as <- <-.
  vm_compute in H2. injection H2 as <- <-.
  exists b3, b4. split; [exact H3|]. split; [exact Hbuf | exact H4].
Defined.

Lemma zero_transfer_changes_nothing_witness :
  read (blank 5) 5 fresh8 = Done ((blank 5, 0), fresh8, []) /\
  write five 5 full8 = Done (0, full8, []).
Proof.
  split.
  - destruct (zero_transfer_changes_nothing fresh8 (blank 5) 5) as (H & _).
    + apply fits_small. lia.
    + apply H. reflexivity.
  - destruct (zero_transfer_changes_nothing full8 five 5) as (_ & H & _).
    + apply fits_small. lia.
    + apply H. reflexivity.
Defined.

Lemma pristine_after_construction_and_reset_witness :
  (availableRead fresh8 = Done (0, fresh8, []) /\
   availableWrite fresh8 = Done (7, fresh8, [])) /\
  (exists b',
      reset wrapped = Done (tt, b', []) /\
      buffer_ b' = blank 8 /\
      availableRead b' = Done (0, b', []) /\
      availableWrite b' = Done (7, b', [])).
Proof.
  destruct (pristine_after_construction_and_reset small_memalign 8)
    as [Hnew Hreset].
  - lia.
  - apply fits_small. lia.
  - split.
    + destruct (Hnew fresh8) as (_ & _ & _ & _ & _ & Har & Haw);
        [reflexivity|]. split; assumption.
    + destruct (Hreset wrapped wrapped_reachable)
        as (b' & Hr & _ & _ & _ & Hbuf & _ & Har & Haw); [reflexivity|].
      exists b'. repeat split; assumption.
Defined.

Lemma fifo_sequential_witness :
  exists b' accepted delivered,
    run [CallWrite six 6; CallRead (blank 4) 4; CallWrite five 5;
         CallRead (blank 6) 6] fresh8 [] []
    = Done (b', accepted, delivered) /\
    accepted = delivered ++ stored b' /\
    delivered `prefix_of` accepted.
Proof.
  apply (fifo_sequential small_memalign small_memalign_limit 8).
  - lia.
  - apply fits_small. lia.
  - reflexivity.
  - repeat constructor; try (apply fits_small; lia); unfold len; simpl; lia.
Defined.

(** * Further properties of the code *)

(** ** What a call leaves alone *)

(* ---------- helper lemmas ---------- *)

Lemma write_frame b data size n b' l :
  write data size b = Done (n, b', l) ->
  readIndex_ b' = readIndex_ b /\ capacity_ b' = capacity_ b.
Proof.
  intros H. unfold write in H. unfold bind at 1 in H.
  rewrite availableWrite_run in H.
  match type of H with context [Z.min size ?a] =>
    generalize dependent (Z.min size a); intros n0 H end.
  destruct (n0 =? 0).
  { unfold ret in H. simplify_eq. split; reflexivity. }
  unfold bind at 1 2 in H. unfold load_writeIndex at 1, get_capacity at 1 in H.
  generalize dependent (Z.min n0 (SizeT.sub (capacity_ b) (writeIndex_ b))).
  intros f H.
  generalize dependent (SizeT.sub n0 f). intros g H.
  unfold_ops. repeat case_match; simplify_eq; split; reflexivity.
Qed.

Lemma read_frame b data size r b' l :
  read data size b = Done (r, b', l) ->
  writeIndex_ b' = writeIndex_ b /\ capacity_ b' = capacity_ b /\
  buffer_ b' = buffer_ b /\
  Forall (fun c => match c with Memcpy (Caller _) (Storage _) _ => True
                              | _ => False end) l.
Proof.
  intros H. unfold read in H. unfold bind at 1 in H.
  rewrite availableRead_run in H.
  match type of H with context [Z.min size ?a] =>
    generalize dependent (Z.min size a); intros n0 H end.
  destruct (n0 =? 0).
  { unfold ret in H. simplify_eq. repeat split. constructor. }
  unfold bind at 1 2 in H. unfold load_readIndex at 1, get_capacity at 1 in H.
  generalize dependent (Z.min n0 (SizeT.sub (capacity_ b) (readIndex_ b))).
  intros f H.
  generalize dependent (SizeT.sub n0 f). intros g H.
  unfold_ops. repeat case_match; simplify_eq; repeat split;
    repeat constructor.
Qed.

Lemma stored_bound b :
  valid b -> 1 <= capacity_ b -> 0 <= len (stored b) <= capacity_ b - 1.
Proof.
  intros Hv H1. rewrite stored_length by assumption.
  pose proof (Z.mod_pos_bound (writeIndex_ b - readIndex_ b) (capacity_ b)
                ltac:(lia)). lia.
Qed.

Lemma availableRead_stored b :
  valid b -> 1 <= capacity_ b ->
  availableRead b = Done (len (stored b), b, []).
Proof.
  intros Hv H1. rewrite stored_length by assumption.
  apply availableRead_valid; assumption.
Qed.

Lemma availableWrite_stored b :
  valid b -> 1 <= capacity_ b ->
  availableWrite b = Done (capacity_ b - 1 - len (stored b), b, []).
Proof.
  intros Hv H1. rewrite stored_length by assumption.
  apply availableWrite_valid; assumption.
Qed.

Lemma read_rest b dest size :
  valid b -> 1 <= capacity_ b -> 0 <= size -> size <= len dest ->
  forall dest' n b' l,
    read dest size b = Done ((dest', n), b', l) ->
    len dest' = len dest /\
    drop (Z.to_nat n) dest' = drop (Z.to_nat n) dest.
Proof.
  intros Hv H1 Hs Hd dest' n b' l Hread.
  pose proof (valid_cursors b Hv H1) as [Hw Hr].
  pose proof (Z.mod_pos_bound (writeIndex_ b - readIndex_ b) (capacity_ b)
                ltac:(lia)) as Hdist.
  assert (len (buffer_ b) = capacity_ b) as Hbuf by (destruct Hv; assumption).
  pose proof (read_run b dest size Hv H1 Hs) as Hrun. cbv zeta in Hrun.
  set (k := Z.min size ((writeIndex_ b - readIndex_ b) mod capacity_ b)) in *.
  specialize (Hrun ltac:(lia)). rewrite Hrun in Hread.
  injection Hread as <- <- <- <-.
  destruct (k =? 0) eqn:E0; bounds; [split; reflexivity|].
  pose proof (get_length dest (buffer_ b) (readIndex_ b) k (capacity_ b)
                Hbuf Hr ltac:(lia) ltac:(lia)) as Hlen.
  split; [exact Hlen|].
  apply list_eq_upto.
  - rewrite !length_drop. unfold len in Hlen. lia.
  - intros i Hi. rewrite !lookup_drop.
    rewrite <- !byte_at_of_nat. apply get_rest; lia.
Qed.

Lemma valid_zero_capacity b :
  valid b -> capacity_ b = 0 -> b = mkCircularBuffer [] 0 0 0.
Proof.
  intros [Hc Hb Hw Hr] H0. destruct b as [buf C w r]. simpl in *.
  assert (w = 0) as -> by lia. assert (r = 0) as -> by lia.
  rewrite H0 in *. unfold len in Hb.
  destruct buf; [reflexivity | simpl in Hb; lia].
Qed.

Lemma write_zero_capacity data size :
  1 <= size <= SizeT.SIZE_MAX ->
  write data size (mkCircularBuffer [] 0 0 0) = Undefined OutOfBounds.
Proof.
  intros Hs. unfold write. unfold bind at 1. rewrite availableWrite_run.
  cbn [buffer_ capacity_ writeIndex_ readIndex_].
  change (0 >=? 0) with true. cbv iota.
  change (SizeT.sub (SizeT.sub 0 (SizeT.sub 0 0)) 1) with SizeT.SIZE_MAX.
  rewrite Z.min_l by lia.
  destruct (size =? 0) eqn:E0; bounds; [lia|].
  unfold bind, load_writeIndex, get_capacity.
  cbn [buffer_ capacity_ writeIndex_ readIndex_].
  change (SizeT.sub 0 0) with 0. rewrite Z.min_r by lia.
  unfold memcpy_to_buffer at 1. cbn [buffer_].
  destruct (in_bounds [] 0 0 && in_bounds data 0 0) eqn:E1; [|reflexivity].
  destruct (0 <? size) eqn:E2; bounds; [|lia].
  unfold memcpy_to_buffer. cbn [buffer_ capacity_ writeIndex_ readIndex_].
  assert (SizeT.sub size 0 = size) as ->.
  { unfold SizeT.sub. rewrite Z.sub_0_r. apply wrap_small.
    unfold SizeT.SIZE_MAX in Hs. lia. }
  assert (in_bounds (blit [] 0 data 0 0) 0 size = false) as ->.
  { unfold in_bounds, blit, len. simpl.
    rewrite andb_false_iff. right. apply Z.leb_gt. lia. }
  reflexivity.
Qed.

Lemma get_ignores_new_bytes buf data dest w r n k C :
  len buf = C -> 0 <= w < C -> 0 <= r < C ->
  0 <= n -> n <= len data -> (w - r) mod C + n < C ->
  0 <= k <= (w - r) mod C -> k <= len dest ->
  get dest (put buf data w n C) r k C = get dest buf r k C.
Proof.
  intros Hb Hw Hr Hn Hdata Hfree Hk Hdest.
  pose proof (Z.mod_pos_bound (w - r) C ltac:(lia)) as Hd.
  assert (len (put buf data w n C) = C) as Hput
    by (rewrite put_length; lia).
  apply list_eq_upto.
  - pose proof (get_length dest (put buf data w n C) r k C Hput Hr
                  ltac:(lia) Hdest).
    pose proof (get_length dest buf r k C Hb Hr ltac:(lia) Hdest).
    unfold len in *. lia.
  - intros i _. rewrite <- !byte_at_of_nat.
    destruct (Z_lt_ge_dec (Z.of_nat i) k) as [Hi|Hi].
    + rewrite !get_read by lia.
      apply put_untouched; try lia.
      * apply Z.mod_pos_bound. lia.
      * apply position_of_old; lia.
    + rewrite !get_rest by lia. reflexivity.
Qed.

Section Extras.

Variable posix_memalign : Z -> Z -> Z.

(** As before: the allocator refuses requests above [PTRDIFF_MAX]. *)
Hypothesis posix_memalign_limit :
  forall alignment size,
    posix_memalign alignment size = 0 -> size <= SizeT.PTRDIFF_MAX.

(** X2.  On a reachable buffer of capacity at least 1, no call is
    undefined: with a caller region of at least [size] bytes, [write]
    returns min(size, availableWrite), [read] returns
    min(size, availableRead), [reset] returns, and each leaves a reachable
    buffer.  No bound on the capacity is needed. *)
Theorem calls_are_defined b data size :
  reachable posix_memalign b -> 1 <= capacity_ b ->
  SizeT.fits size -> size <= len data ->
  exists ar aw,
    availableRead b = Done (ar, b, []) /\
    availableWrite b = Done (aw, b, []) /\
    (exists b' l, write data size b = Done (Z.min size aw, b', l) /\
                  reachable posix_memalign b') /\
    (exists data' b' l,
        read data size b = Done ((data', Z.min size ar), b', l) /\
        reachable posix_memalign b') /\
    (exists b', reset b = Done (tt, b', []) /\ reachable posix_memalign b').
Proof.
  intros Hb H1 Hfits Hdata. pose proof (reachable_valid _ _ Hb) as Hv.
  pose proof (Z.mod_pos_bound (writeIndex_ b - readIndex_ b) (capacity_ b)
                ltac:(lia)) as Hd.
  destruct Hfits as [Hs Hmax].
  do 2 eexists.
  split; [apply availableRead_valid; assumption|].
  split; [apply availableWrite_valid; assumption|].
  split; [|split].
  - pose proof (write_run b data size Hv H1 Hs) as H. cbv zeta in H.
    specialize (H ltac:(lia)).
    do 2 eexists. split; [exact H|].
    eapply reach_write; [exact Hb | split; eassumption | exact H].
  - pose proof (read_run b data size Hv H1 Hs) as H. cbv zeta in H.
    specialize (H ltac:(lia)).
    do 3 eexists. split; [exact H|].
    eapply reach_read; [exact Hb | split; eassumption | exact H].
  - eexists. split; [apply reset_run, Hv|].
    eapply reach_reset; [exact Hb | apply reset_run, Hv].
Qed.

(** X3.  [write] appends to the stored bytes: it accepts
    n = min(size, capacity - 1 - stored) bytes, and the stored bytes
    afterwards are the stored bytes before followed by the first n bytes of
    [data]. *)
Theorem write_enqueues b data size :
  reachable posix_memalign b -> 1 <= capacity_ b ->
  SizeT.fits size -> size <= len data ->
  exists n b' l,
    write data size b = Done (n, b', l) /\
    n = Z.min size (capacity_ b - 1 - len (stored b)) /\
    stored b' = stored b ++ take (Z.to_nat n) data.
Proof.
  intros Hb H1 [Hs _] Hdata. pose proof (reachable_valid _ _ Hb) as Hv.
  destruct (write_stored b data size Hv H1 (reachable_capacity posix_memalign posix_memalign_limit b Hb) Hs Hdata)
    as (n & b' & l & Hw & Hn & _ & _ & Hst).
  exists n, b', l. split; [exact Hw|]. split; [exact Hn | exact Hst].
Qed.

(** X4.  [read] takes from the front of the stored bytes: it delivers
    n = min(size, stored) bytes, the first n bytes of the caller's region
    are the n oldest stored bytes, the rest of the region is untouched, and
    the stored bytes afterwards are the remaining ones. *)
Theorem read_dequeues b dest size :
  reachable posix_memalign b -> 1 <= capacity_ b ->
  SizeT.fits size -> size <= len dest ->
  exists n dest' b' l,
    read dest size b = Done ((dest', n), b', l) /\
    n = Z.min size (len (stored b)) /\
    take (Z.to_nat n) dest' = take (Z.to_nat n) (stored b) /\
    drop (Z.to_nat n) dest' = drop (Z.to_nat n) dest /\
    len dest' = len dest /\
    stored b' = drop (Z.to_nat n) (stored b).
Proof.
  intros Hb H1 [Hs _] Hdest. pose proof (reachable_valid _ _ Hb) as Hv.
  destruct (read_stored b dest size Hv H1 (reachable_capacity posix_memalign posix_memalign_limit b Hb) Hs Hdest)
    as (n & dest' & b' & l & Hr & Hn & _ & _ & Htake & Hst).
  destruct (read_rest b dest size Hv H1 Hs Hdest _ _ _ _ Hr) as [Hlen Hdrop].
  exists n, dest', b', l. repeat split; assumption.
Qed.

(** X5.  A [read] that asks for at least [availableRead] bytes returns
    [availableRead], delivers all stored bytes in order, and leaves the
    buffer empty with capacity - 1 bytes writable. *)
Theorem read_drains b dest size ar :
  reachable posix_memalign b -> 1 <= capacity_ b ->
  SizeT.fits size -> size <= len dest ->
  availableRead b = Done (ar, b, []) -> ar <= size ->
  exists dest' b' l,
    read dest size b = Done ((dest', ar), b', l) /\
    take (Z.to_nat ar) dest' = stored b /\
    availableRead b' = Done (0, b', []) /\
    availableWrite b' = Done (capacity_ b - 1, b', []).
Proof.
  intros Hb H1 [Hs _] Hdest Har Hlt. pose proof (reachable_valid _ _ Hb) as Hv.
  rewrite availableRead_stored in Har by assumption. injection Har as Har.
  destruct (read_stored b dest size Hv H1 (reachable_capacity posix_memalign posix_memalign_limit b Hb) Hs Hdest)
    as (n & dest' & b' & l & Hr & Hn & Hv' & HC' & Htake & Hst).
  rewrite Z.min_r in Hn by lia. subst n. rewrite Har in *.
  exists dest', b', l. split; [exact Hr|].
  assert (Z.to_nat ar = length (stored b)) as Hnat by (unfold len in Har; lia).
  rewrite Hnat in *. rewrite firstn_all in Htake. rewrite drop_all in Hst.
  split; [exact Htake|].
  rewrite availableRead_stored, availableWrite_stored by (assumption || lia).
  rewrite Hst, HC'. unfold len. simpl. rewrite Z.sub_0_r. split; reflexivity.
Qed.

(** X6.  After a call that returned n, [write] has moved n bytes from
    writable to readable and [read] has moved n bytes from readable to
    writable: the observers change by exactly the returned count. *)
Theorem availability_moves_by_count b data size ar aw :
  reachable posix_memalign b -> 1 <= capacity_ b ->
  SizeT.fits size -> size <= len data ->
  availableRead b = Done (ar, b, []) ->
  availableWrite b = Done (aw, b, []) ->
  (exists n b' l,
      write data size b = Done (n, b', l) /\
      availableRead b' = Done (ar + n, b', []) /\
      availableWrite b' = Done (aw - n, b', [])) /\
  (exists r b' l,
      read data size b = Done (r, b', l) /\
      availableRead b' = Done (ar - r.2, b', []) /\
      availableWrite b' = Done (aw + r.2, b', [])).
Proof.
  intros Hb H1 [Hs _] Hdata Har Haw. pose proof (reachable_valid _ _ Hb) as Hv.
  rewrite availableRead_stored in Har by assumption. injection Har as Har.
  rewrite availableWrite_stored in Haw by assumption. injection Haw as Haw.
  pose proof (stored_bound b Hv H1) as Hbound.
  split.
  - destruct (write_stored b data size Hv H1 (reachable_capacity posix_memalign posix_memalign_limit b Hb) Hs Hdata)
      as (n & b' & l & Hw & Hn & Hv' & HC' & Hst).
    exists n, b', l. split; [exact Hw|].
    rewrite availableRead_stored, availableWrite_stored by (assumption || lia).
    assert (len (stored b') = ar + n) as ->.
    { rewrite Hst. unfold len in *. rewrite length_app, length_take. lia. }
    rewrite HC'. split; do 3 f_equal; lia.
  - destruct (read_stored b data size Hv H1 (reachable_capacity posix_memalign posix_memalign_limit b Hb) Hs Hdata)
      as (n & dest' & b' & l & Hr & Hn & Hv' & HC' & _ & Hst).
    exists (dest', n), b', l. split; [exact Hr|]. simpl.
    rewrite availableRead_stored, availableWrite_stored by (assumption || lia).
    assert (len (stored b') = ar - n) as ->.
    { rewrite Hst. unfold len in *. rewrite length_drop. lia. }
    rewrite HC'. split; do 3 f_equal; lia.
Qed.

(** X11.  A buffer of capacity 0: [availableRead] returns 0,
    [availableWrite] returns [SIZE_MAX], [read], [reset] and a [write] of
    size 0 return and change nothing, and every [write] of at least one
    byte copies out of bounds. *)
Theorem zero_capacity_behaviour b data size :
  reachable posix_memalign b -> capacity_ b = 0 -> SizeT.fits size ->
  availableRead b = Done (0, b, []) /\
  availableWrite b = Done (SizeT.SIZE_MAX, b, []) /\
  read data size b = Done ((data, 0), b, []) /\
  reset b = Done (tt, b, []) /\
  write data 0 b = Done (0, b, []) /\
  (1 <= size -> write data size b = Undefined OutOfBounds).
Proof.
  intros Hb H0 [Hs Hmax]. apply reachable_valid in Hb.
  rewrite (valid_zero_capacity b Hb H0).
  split; [reflexivity|]. split; [reflexivity|].
  split; [apply read_nothing; [exact Hs | reflexivity]|].
  split; [reflexivity|].
  split; [apply write_size_zero|].
  intros H1. apply write_zero_capacity. lia.
Qed.

(** X9.  One slot stays free: on a freshly constructed buffer of capacity C
    a [write] of at least C - 1 bytes accepts exactly C - 1, after which
    [availableWrite] is 0 and every further [write] returns 0 and changes
    nothing. *)
Theorem usable_capacity capacity b data size :
  1 <= capacity -> SizeT.fits capacity ->
  new_CircularBuffer posix_memalign capacity = Constructed b ->
  SizeT.fits size -> capacity - 1 <= size -> size <= len data ->
  exists b' l,
    write data size b = Done (capacity - 1, b', l) /\
    stored b' = take (Z.to_nat (capacity - 1)) data /\
    availableRead b' = Done (capacity - 1, b', []) /\
    availableWrite b' = Done (0, b', []) /\
    (forall data' size', SizeT.fits size' ->
       write data' size' b' = Done (0, b', [])).
Proof.
  intros H1 HC Hnew [Hs _] Hge Hdata.
  apply new_CircularBuffer_run in Hnew as [Hok ->].
  apply posix_memalign_limit in Hok.
  pose proof (zeroed_valid capacity HC) as Hv.
  set (b := mkCircularBuffer _ capacity 0 0) in *.
  assert (stored b = []) as Hempty.
  { unfold stored, b. cbn [buffer_ capacity_ writeIndex_ readIndex_].
    rewrite Z.sub_diag, Z.mod_0_l by lia. reflexivity. }
  destruct (write_stored b data size Hv H1 Hok Hs Hdata)
    as (n & b' & l & Hw & Hn & Hv' & HC' & Hst).
  rewrite Hempty in Hn, Hst. unfold len in Hn. simpl in Hn, HC', Hst.
  rewrite Z.sub_0_r, Z.min_r in Hn by lia. subst n.
  exists b', l. split; [exact Hw|]. split; [exact Hst|].
  assert (len (stored b') = capacity - 1) as Hlen.
  { rewrite Hst. unfold len in *. rewrite length_take. lia. }
  assert (availableWrite b' = Done (0, b', [])) as Haw.
  { rewrite availableWrite_stored by (assumption || lia).
    rewrite Hlen, HC'. do 3 f_equal. lia. }
  split; [rewrite availableRead_stored by (assumption || lia);
          rewrite Hlen; reflexivity|].
  split; [exact Haw|].
  intros data' size' [Hs' _]. apply write_nothing; assumption.
Qed.

(** X10.  [reset] puts a reachable buffer into the very state the
    constructor builds for its capacity, holding no bytes. *)
Theorem reset_is_reconstruction b :
  reachable posix_memalign b ->
  exists b',
    reset b = Done (tt, b', []) /\
    new_CircularBuffer posix_memalign (capacity_ b) = Constructed b' /\
    stored b' = [].
Proof.
  intros Hb. pose proof (reachable_allocated _ _ Hb) as Hok.
  apply reachable_valid in Hb.
  eexists. split; [apply reset_run, Hb|].
  split.
  - unfold new_CircularBuffer. rewrite Hok. reflexivity.
  - unfold stored. cbn [buffer_ capacity_ writeIndex_ readIndex_].
    rewrite Z.sub_diag. destruct (capacity_ b =? 0) eqn:E; bounds.
    + rewrite E. reflexivity.
    + rewrite Z.mod_0_l by lia. reflexivity.
Qed.

(** X12.  [nextIndex] of the write index stays below the capacity, wraps
    from capacity - 1 to 0, and is the write index after a [write] that
    accepted one byte. *)
Theorem nextIndex_is_one_byte_write b :
  reachable posix_memalign b -> 1 <= capacity_ b ->
  exists next,
    nextIndex (writeIndex_ b) b = Done (next, b, []) /\
    0 <= next < capacity_ b /\
    next = (if writeIndex_ b + 1 =? capacity_ b then 0 else writeIndex_ b + 1) /\
    (forall data n b' l,
        write data 1 b = Done (n, b', l) -> n = 1 ->
        writeIndex_ b' = next).
Proof.
  intros Hb H1. apply reachable_valid in Hb.
  pose proof (valid_cursors b Hb H1) as [Hw Hr].
  assert (SizeT.add (writeIndex_ b) 1 = writeIndex_ b + 1) as Hadd.
  { unfold SizeT.add. apply wrap_small. destruct Hb as [[_ Hc] _ _ _].
    unfold SizeT.SIZE_MAX in Hc. lia. }
  exists ((writeIndex_ b + 1) mod capacity_ b).
  split.
  - unfold nextIndex, bind, get_capacity, rem. rewrite Hadd.
    destruct (capacity_ b =? 0) eqn:E; bounds; [lia | reflexivity].
  - split; [apply Z.mod_pos_bound; lia|].
    split.
    + destruct (writeIndex_ b + 1 =? capacity_ b) eqn:E; bounds.
      * rewrite E. apply Z.mod_same. lia.
      * apply Z.mod_small. lia.
    + intros data n b' l Hwrite ->.
      pose proof (Z.mod_pos_bound (writeIndex_ b - readIndex_ b)
                    (capacity_ b) ltac:(lia)) as Hd.
      unfold write in Hwrite. unfold bind at 1 in Hwrite.
      rewrite availableWrite_valid in Hwrite by assumption.
      destruct (Z.min 1 _ =? 0) eqn:E0 in Hwrite;
        [unfold ret in Hwrite; simplify_eq|].
      unfold_ops. repeat case_match; simplify_eq.
      all: cbn [writeIndex_].
      all: match goal with H : Z.min 1 _ = 1 |- _ => rewrite H end.
      all: rewrite Hadd; reflexivity.
Qed.

(** X8.  A [write] that fits into the free space and a [read] of bytes
    already stored commute: in either order both return their full size,
    the reader gets the same bytes and the buffer ends in the same
    state. *)
Theorem write_and_read_commute b data dest sw sr ar aw :
  reachable posix_memalign b -> 1 <= capacity_ b ->
  SizeT.fits sw -> SizeT.fits sr -> sw <= len data -> sr <= len dest ->
  availableRead b = Done (ar, b, []) ->
  availableWrite b = Done (aw, b, []) ->
  sw <= aw -> sr <= ar ->
  exists bw lw dest' b2 lr br lr' lw',
    write data sw b = Done (sw, bw, lw) /\
    read dest sr bw = Done ((dest', sr), b2, lr) /\
    read dest sr b = Done ((dest', sr), br, lr') /\
    write data sw br = Done (sw, b2, lw').
Proof.
  intros Hb H1 [Hsw _] [Hsr _] Hdata Hdest Har Haw Hfree Hheld.
  pose proof (reachable_capacity posix_memalign posix_memalign_limit b Hb) as Hmax.
  apply reachable_valid in Hb.
  pose proof (valid_cursors b Hb H1) as [Hw Hr].
  pose proof (Z.mod_pos_bound (writeIndex_ b - readIndex_ b) (capacity_ b)
                ltac:(lia)) as Hd.
  assert (len (buffer_ b) = capacity_ b) as Hbuf by (destruct Hb; assumption).
  rewrite availableRead_valid in Har by assumption. injection Har as Har.
  rewrite availableWrite_valid in Haw by assumption. injection Haw as Haw.
  destruct (Z.eq_dec sw 0) as [->|Hsw0].
  { pose proof (read_run b dest sr Hb H1 Hsr) as Hread. cbv zeta in Hread.
    rewrite Z.min_l in Hread by lia. specialize (Hread Hdest).
    do 8 eexists. split; [apply write_size_zero|].
    split; [exact Hread|]. split; [exact Hread|]. apply write_size_zero. }
  destruct (Z.eq_dec sr 0) as [->|Hsr0].
  { pose proof (write_run b data sw Hb H1 Hsw) as Hwrite. cbv zeta in Hwrite.
    rewrite Z.min_l in Hwrite by lia. specialize (Hwrite Hdata).
    do 8 eexists. split; [exact Hwrite|].
    split; [apply read_size_zero|]. split; [apply read_size_zero|].
    exact Hwrite. }
  assert (forall x, 0 <= x < capacity_ b -> 0 <= sw + sr ->
            SizeT.add x sw = x + sw /\ SizeT.add x sr = x + sr) as Hadd.
  { intros x Hx _. unfold SizeT.add. rewrite !wrap_small; [split; reflexivity| |];
      unfold SizeT.PTRDIFF_MAX in Hmax; unfold SizeT.modulus; lia. }
  destruct (Hadd (writeIndex_ b) Hw ltac:(lia)) as [Haddw _].
  destruct (Hadd (readIndex_ b) Hr ltac:(lia)) as [_ Haddr].
  (* write first *)
  pose proof (write_run b data sw Hb H1 Hsw) as Hwrite. cbv zeta in Hwrite.
  rewrite Z.min_l in Hwrite by lia. specialize (Hwrite Hdata).
  rewrite (proj2 (Z.eqb_neq sw 0) Hsw0), Haddw in Hwrite.
  destruct (write_valid _ _ _ _ _ _ Hb Hwrite) as (Hvw & _ & _).
  match type of Hwrite with _ = Done (_, ?x, _) =>
    pose proof (read_run x dest sr Hvw ltac:(simpl; lia) Hsr) as Hread1 end.
  cbv zeta in Hread1.
  cbn [buffer_ capacity_ writeIndex_ readIndex_] in Hread1.
  rewrite distance_after_write, Z.min_l in Hread1 by lia.
  specialize (Hread1 Hdest).
  rewrite (proj2 (Z.eqb_neq sr 0) Hsr0), Haddr in Hread1.
  rewrite get_ignores_new_bytes in Hread1 by lia.
  (* read first *)
  pose proof (read_run b dest sr Hb H1 Hsr) as Hread. cbv zeta in Hread.
  rewrite Z.min_l in Hread by lia. specialize (Hread Hdest).
  rewrite (proj2 (Z.eqb_neq sr 0) Hsr0), Haddr in Hread.
  destruct (read_valid _ _ _ _ _ _ Hb Hread) as (Hvr & _ & _).
  match type of Hread with _ = Done (_, ?x, _) =>
    pose proof (write_run x data sw Hvr ltac:(simpl; lia) Hsw) as Hwrite1 end.
  cbv zeta in Hwrite1.
  cbn [buffer_ capacity_ writeIndex_ readIndex_] in Hwrite1.
  rewrite distance_after_read, Z.min_l in Hwrite1 by lia.
  specialize (Hwrite1 Hdata).
  rewrite (proj2 (Z.eqb_neq sw 0) Hsw0), Haddw in Hwrite1.
  do 8 eexists. split; [exact Hwrite|]. split; [exact Hread1|].
  split; [exact Hread|]. exact Hwrite1.
Qed.

End Extras.

(** X7.  [write] never changes the read index or the capacity; [read] never
    changes the write index, the capacity or any byte of the storage, and
    only copies from the storage to the caller.  This holds in every
    state. *)
Theorem each_side_owns_its_index b data sw n b1 l1 dest sr r b2 l2 :
  write data sw b = Done (n, b1, l1) ->
  read dest sr b = Done (r, b2, l2) ->
  readIndex_ b1 = readIndex_ b /\ capacity_ b1 = capacity_ b /\
  writeIndex_ b2 = writeIndex_ b /\ capacity_ b2 = capacity_ b /\
  buffer_ b2 = buffer_ b /\
  Forall (fun c => match c with
                   | Memcpy (Caller _) (Storage _) _ => True
                   | _ => False
                   end) l2.
Proof.
  intros Hw Hr. apply write_frame in Hw as [H1 H2].
  apply read_frame in Hr as (H3 & H4 & H5 & H6). repeat split; assumption.
Qed.

(** ** The bridge *)

Lemma with_object_live {A : Type} p (m : M A) live b :
  p <> nullptr -> live !! p = Some b ->
  with_object p m live =
  match m b with
  | Done (a, b', _) => Returns a (<[p := b']> live)
  | Undefined f => Crashes (InObject f)
  end.
Proof.
  intros Hp Hb. unfold with_object.
  destruct (p =? nullptr) eqn:E; [apply Z.eqb_eq in E; contradiction|].
  rewrite Hb. reflexivity.
Qed.

Lemma with_object_returns {A : Type} p (m : M A) live a live' :
  with_object p m live = Returns a live' ->
  p <> nullptr /\
  exists b b' l,
    live !! p = Some b /\ m b = Done (a, b', l) /\ live' = <[p := b']> live.
Proof.
  unfold with_object. intros H.
  destruct (p =? nullptr) eqn:E; [discriminate|]. apply Z.eqb_neq in E.
  split; [exact E|].
  destruct (live !! p) as [b|] eqn:Hb; [|discriminate].
  destruct (m b) as [[[a0 b'] l]|f] eqn:Hm; [|discriminate].
  injection H as <- <-. exists b, b', l. repeat split. exact Hm.
Qed.

Lemma with_object_dangling {A : Type} p (m : M A) live :
  p <> nullptr -> live !! p = None ->
  with_object p m live = Crashes DanglingHandle.
Proof.
  intros Hp Hb. unfold with_object.
  destruct (p =? nullptr) eqn:E; [apply Z.eqb_eq in E; contradiction|].
  rewrite Hb. reflexivity.
Qed.

Lemma with_object_commute {A B : Type} p q (m1 : M A) (m2 : M B)
  live a live1 c live2 :
  p <> q ->
  with_object p m1 live = Returns a live1 ->
  with_object q m2 live1 = Returns c live2 ->
  exists live1',
    with_object q m2 live = Returns c live1' /\
    with_object p m1 live1' = Returns a live2.
Proof.
  intros Hpq H1 H2.
  apply with_object_returns in H1 as (Hp & b & b' & l & Hb & Hm1 & ->).
  apply with_object_returns in H2 as (Hq & d & d' & l' & Hd & Hm2 & ->).
  rewrite lookup_insert_ne in Hd by exact Hpq.
  exists (<[q := d']> live). split.
  - rewrite (with_object_live q m2 live d Hq Hd), Hm2. reflexivity.
  - rewrite (with_object_live p m1 _ b Hp), Hm1.
    + rewrite insert_insert_ne by exact Hpq. reflexivity.
    + rewrite lookup_insert_ne by (intros ->; contradiction). exact Hb.
Qed.

Lemma bump_new_fresh live p :
  bump_new live = Some p -> p <> nullptr /\ live !! p = None.
Proof.
  unfold bump_new, nullptr. intros H.
  destruct (live !! (Z.of_nat (size live) + 1)) eqn:E; [discriminate|].
  injection H as <-. split; [lia | exact E].
Qed.

Lemma sound_insert alloc live p b :
  sound alloc live -> p <> nullptr -> reachable alloc b ->
  sound alloc (<[p := b]> live).
Proof.
  intros Hs Hp Hb q d Hq. destruct (Z.eq_dec q p) as [->|Hne].
  - rewrite lookup_insert_eq in Hq. injection Hq as <-. split; assumption.
  - rewrite lookup_insert_ne in Hq by congruence. apply Hs, Hq.
Qed.

Lemma sound_empty alloc : sound alloc ∅.
Proof. intros p b H. rewrite lookup_empty in H. discriminate. Qed.

Section BridgeProperties.

Variable posix_memalign : Z -> Z -> Z.
Variable operator_new : gmap Z CircularBuffer -> option Z.

Hypothesis posix_memalign_limit :
  forall alignment size,
    posix_memalign alignment size = 0 -> size <= SizeT.PTRDIFF_MAX.

(** [operator new] returns the address of fresh storage, never null. *)
Hypothesis operator_new_fresh :
  forall live p,
    operator_new live = Some p -> p <> nullptr /\ live !! p = None.


(** X14.  Through the bridge: on a handle just created with capacity
    C >= 2, writing N <= C - 1 bytes and reading N bytes returns the written
    bytes and leaves the buffer empty, and destroying the handle leaves the
    live objects as they were before the creation. *)
Theorem bridge_round_trip capacity live p live1 data dest :
  2 <= capacity -> SizeT.fits capacity ->
  circular_buffer_create posix_memalign operator_new capacity live
    = Returns p live1 ->
  p <> nullptr ->
  len data <= capacity - 1 -> len data <= len dest ->
  exists live2 dest' live3,
    circular_buffer_available_write p live1 = Returns (capacity - 1) live1 /\
    circular_buffer_write p data (len data) live1
      = Returns (len data) live2 /\
    circular_buffer_read p dest (len data) live2
      = Returns (dest', len data) live3 /\
    take (length data) dest' = data /\
    circular_buffer_available_read p live3 = Returns 0 live3 /\
    circular_buffer_destroy p live3 = Returns tt live.
Proof.
  intros H2 HC Hcreate Hp Hdata Hdest.
  unfold circular_buffer_create in Hcreate.
  destruct (operator_new live) as [p0|] eqn:Hnew;
    [|injection Hcreate as <- <-; contradiction].
  destruct (new_CircularBuffer posix_memalign capacity) as [b|] eqn:Hb;
    [|injection Hcreate as <- <-; contradiction].
  injection Hcreate as <- <-.
  destruct (operator_new_fresh live p0 Hnew) as [_ Hfree].
  apply new_CircularBuffer_run in Hb as [Hok ->].
  apply posix_memalign_limit in Hok.
  pose proof (zeroed_valid capacity HC) as Hv.
  set (b := mkCircularBuffer _ capacity 0 0) in *.
  assert (stored b = []) as Hempty.
  { unfold stored, b. cbn [buffer_ capacity_ writeIndex_ readIndex_].
    rewrite Z.sub_diag, Z.mod_0_l by lia. reflexivity. }
  assert (0 <= len data) as H0 by (unfold len; lia).
  assert (1 <= capacity_ b) as H1b by (subst b; simpl; lia).
  destruct (write_stored b data (len data) Hv ltac:(simpl; lia) Hok H0
              ltac:(lia))
    as (n & b1 & l1 & Hw & Hn & Hv1 & HC1 & Hst1).
  rewrite Hempty in Hn, Hst1. change (len []) with 0 in Hn.
  simpl in Hst1, HC1. cbn [capacity_ b] in Hn.
  rewrite Z.sub_0_r, Z.min_l in Hn by lia. subst n.
  rewrite take_ge in Hst1 by (unfold len; lia).
  destruct (read_stored b1 dest (len data) Hv1 ltac:(lia) ltac:(lia) H0 Hdest)
    as (n & dest' & b2 & l2 & Hr & Hn & Hv2 & HC2 & Htake & Hst2).
  rewrite Hst1, Z.min_id in Hn. subst n.
  replace (Z.to_nat (len data)) with (length data) in * by (unfold len; lia).
  rewrite Hst1, firstn_all in Htake. rewrite Hst1, drop_all in Hst2.
  exists (<[p0 := b1]> (<[p0 := b]> live)), dest',
    (<[p0 := b2]> (<[p0 := b1]> (<[p0 := b]> live))).
  split.
  { unfold circular_buffer_available_write.
    rewrite (with_object_live p0 _ _ b Hp) by apply lookup_insert_eq.
    rewrite availableWrite_stored by (assumption || exact H1b).
    rewrite Hempty, insert_insert_eq. change (len []) with 0.
    f_equal. subst b. simpl. lia. }
  split.
  { unfold circular_buffer_write.
    rewrite (with_object_live p0 _ _ b Hp) by apply lookup_insert_eq.
    rewrite Hw. reflexivity. }
  split.
  { unfold circular_buffer_read.
    rewrite (with_object_live p0 _ _ b1 Hp) by apply lookup_insert_eq.
    rewrite Hr. reflexivity. }
  split; [exact Htake|].
  split.
  { unfold circular_buffer_available_read.
    rewrite (with_object_live p0 _ _ b2 Hp) by apply lookup_insert_eq.
    rewrite availableRead_stored by (assumption || lia).
    rewrite Hst2. simpl. rewrite insert_insert_eq. reflexivity. }
  unfold circular_buffer_destroy.
  destruct (p0 =? nullptr) eqn:E; [apply Z.eqb_eq in E; contradiction|].
  rewrite lookup_insert_eq, !insert_insert_eq.
  rewrite delete_insert_eq, delete_id by exact Hfree. reflexivity.
Qed.

(** X17.  While every live object is reachable, a bridge call on a live
    handle of capacity at least 1 with a caller region of at least [size]
    bytes returns, the observers leave all objects unchanged, and after
    [write], [read], [reset], [destroy] and [create] every live object is
    again reachable. *)
Theorem live_handles_never_crash live p b data size capacity :
  sound posix_memalign live ->
  live !! p = Some b -> 1 <= capacity_ b ->
  SizeT.fits size -> size <= len data -> SizeT.fits capacity ->
  (exists n live',
      circular_buffer_write p data size live = Returns n live' /\
      sound posix_memalign live') /\
  (exists r live',
      circular_buffer_read p data size live = Returns r live' /\
      sound posix_memalign live') /\
  (exists live',
      circular_buffer_reset p live = Returns tt live' /\
      sound posix_memalign live') /\
  (exists n, circular_buffer_available_read p live = Returns n live) /\
  (exists n, circular_buffer_available_write p live = Returns n live) /\
  (exists live',
      circular_buffer_destroy p live = Returns tt live' /\
      sound posix_memalign live') /\
  (exists q live',
      circular_buffer_create posix_memalign operator_new capacity live
        = Returns q live' /\
      sound posix_memalign live').
Proof.
  intros Hs Hlive H1 Hsize Hdata HC.
  destruct (Hs p b Hlive) as [Hp Hb].
  pose proof (reachable_valid _ _ Hb) as Hv.
  destruct Hsize as [Hs0 Hs1].
  split; [|split; [|split; [|split; [|split; [|split]]]]].
  - pose proof (write_run b data size Hv H1 Hs0) as H. cbv zeta in H.
    pose proof (Z.mod_pos_bound (writeIndex_ b - readIndex_ b) (capacity_ b)
                  ltac:(lia)).
    specialize (H ltac:(lia)).
    do 2 eexists. unfold circular_buffer_write.
    rewrite (with_object_live p _ live b Hp Hlive), H.
    split; [reflexivity|]. apply sound_insert; [exact Hs | exact Hp |].
    eapply reach_write; [exact Hb | split; eassumption | exact H].
  - pose proof (read_run b data size Hv H1 Hs0) as H. cbv zeta in H.
    pose proof (Z.mod_pos_bound (writeIndex_ b - readIndex_ b) (capacity_ b)
                  ltac:(lia)).
    specialize (H ltac:(lia)).
    do 2 eexists. unfold circular_buffer_read.
    rewrite (with_object_live p _ live b Hp Hlive), H.
    split; [reflexivity|]. apply sound_insert; [exact Hs | exact Hp |].
    eapply reach_read; [exact Hb | split; eassumption | exact H].
  - eexists. unfold circular_buffer_reset.
    rewrite (with_object_live p _ live b Hp Hlive), (reset_run b Hv).
    split; [reflexivity|]. apply sound_insert; [exact Hs | exact Hp |].
    eapply reach_reset; [exact Hb | apply reset_run, Hv].
  - eexists. unfold circular_buffer_available_read.
    rewrite (with_object_live p _ live b Hp Hlive), availableRead_run.
    rewrite insert_id by exact Hlive. reflexivity.
  - eexists. unfold circular_buffer_available_write.
    rewrite (with_object_live p _ live b Hp Hlive), availableWrite_run.
    rewrite insert_id by exact Hlive. reflexivity.
  - exists (delete p live). unfold circular_buffer_destroy.
    destruct (p =? nullptr) eqn:E; [apply Z.eqb_eq in E; contradiction|].
    rewrite Hlive. split; [reflexivity|].
    intros q d Hq. apply lookup_delete_Some in Hq as [_ Hq]. apply Hs, Hq.
  - unfold circular_buffer_create.
    destruct (operator_new live) as [q|] eqn:Hnew;
      [|exists nullptr, live; split; [reflexivity | exact Hs]].
    destruct (new_CircularBuffer posix_memalign capacity) as [c|] eqn:Hc;
      [|exists nullptr, live; split; [reflexivity | exact Hs]].
    exists q, (<[q := c]> live). split; [reflexivity|].
    apply sound_insert; [exact Hs | apply (operator_new_fresh live q Hnew) |].
    eapply reach_new; [exact HC | exact Hc].
Qed.

End BridgeProperties.

(** X15.  Buffers are independent: a write through one handle and a read
    through another give the same results and the same objects in either
    order, and neither touches the other's object. *)
Theorem buffers_are_independent p q live data sw n live1 dest sr r live2 :
  p <> q ->
  circular_buffer_write p data sw live = Returns n live1 ->
  circular_buffer_read q dest sr live1 = Returns r live2 ->
  exists live1',
    circular_buffer_read q dest sr live = Returns r live1' /\
    circular_buffer_write p data sw live1' = Returns n live2 /\
    live1' !! p = live !! p /\ live1 !! q = live !! q.
Proof.
  intros Hpq Hw Hr.
  destruct (with_object_commute p q _ _ live n live1 r live2 Hpq Hw Hr)
    as (live1' & Hr' & Hw').
  exists live1'. split; [exact Hr'|]. split; [exact Hw'|].
  apply with_object_returns in Hw as (_ & b & b' & l & _ & _ & ->).
  apply with_object_returns in Hr' as (_ & d & d' & l' & _ & _ & ->).
  split; apply lookup_insert_ne; congruence.
Qed.

(** X16.  After [circular_buffer_destroy] the handle is no longer live,
    the other handles keep their objects, and every call through the
    destroyed handle, a second destroy included, is undefined.  Destroying
    the null handle does nothing; every other call through it is
    undefined. *)
Theorem invalid_handles p b live data size :
  p <> nullptr -> live !! p = Some b ->
  exists live',
    circular_buffer_destroy p live = Returns tt live' /\
    live' !! p = None /\
    (forall q, q <> p -> live' !! q = live !! q) /\
    circular_buffer_write p data size live' = Crashes DanglingHandle /\
    circular_buffer_read p data size live' = Crashes DanglingHandle /\
    circular_buffer_reset p live' = Crashes DanglingHandle /\
    circular_buffer_available_read p live' = Crashes DanglingHandle /\
    circular_buffer_available_write p live' = Crashes DanglingHandle /\
    circular_buffer_destroy p live' = Crashes DanglingHandle /\
    circular_buffer_destroy nullptr live = Returns tt live /\
    circular_buffer_write nullptr data size live = Crashes NullHandle /\
    circular_buffer_read nullptr data size live = Crashes NullHandle /\
    circular_buffer_reset nullptr live = Crashes NullHandle /\
    circular_buffer_available_read nullptr live = Crashes NullHandle /\
    circular_buffer_available_write nullptr live = Crashes NullHandle.
Proof.
  intros Hp Hb. exists (delete p live).
  assert (delete p live !! p = None) as Hgone by apply lookup_delete_eq.
  split.
  { unfold circular_buffer_destroy.
    destruct (p =? nullptr) eqn:E; [apply Z.eqb_eq in E; contradiction|].
    rewrite Hb. reflexivity. }
  split; [exact Hgone|].
  split; [intros q Hq; apply lookup_delete_ne; congruence|].
  repeat (split; [apply with_object_dangling; assumption|]).
  split.
  { unfold circular_buffer_destroy.
    destruct (p =? nullptr) eqn:E; [apply Z.eqb_eq in E; contradiction|].
    rewrite Hgone. reflexivity. }
  repeat split.
Qed.

(** ** Witnesses of the further properties *)

Lemma empty0_reachable : reachable small_memalign empty0.
Proof.
  apply (reach_new small_memalign 0); [apply fits_small; lia | reflexivity].
Qed.

Lemma one_live_sound : sound small_memalign one_live.
Proof.
  apply sound_insert; [apply sound_empty | discriminate | exact fresh8_reachable].
Qed.

Lemma each_side_owns_its_index_witness :
  exists b1 b2,
    readIndex_ b1 = readIndex_ wrapped /\ capacity_ b1 = capacity_ wrapped /\
    writeIndex_ b2 = writeIndex_ wrapped /\ capacity_ b2 = capacity_ wrapped /\
    buffer_ b2 = buffer_ wrapped.
Proof.
  pose proof (each_side_owns_its_index wrapped six 6 _ _ _ (blank 3) 3 _ _ _
                eq_refl eq_refl) as (H1 & H2 & H3 & H4 & H5 & _).
  eexists _, _. repeat split; eassumption.
Defined.

Lemma calls_are_defined_witness :
  (exists b' l, write six 6 wrapped = Done (2, b', l)) /\
  (exists data' b' l, read (blank 6) 6 wrapped = Done ((data', 5), b', l)).
Proof.
  destruct (calls_are_defined small_memalign wrapped six 6)
    as (ar & aw & Har & Haw & (b1 & l1 & Hw & _) & _).
  - exact wrapped_reachable.
  - simpl. lia.
  - apply fits_small. lia.
  - unfold len. simpl. lia.
  - destruct (calls_are_defined small_memalign wrapped (blank 6) 6)
      as (ar' & aw' & Har' & Haw' & _ & (d & b2 & l2 & Hr & _) & _).
    + exact wrapped_reachable.
    + simpl. lia.
    + apply fits_small. lia.
    + unfold len. simpl. lia.
    + injection Haw as <-. injection Har' as <-.
      split; [exists b1, l1; exact Hw | exists d, b2, l2; exact Hr].
Defined.

Lemma write_enqueues_witness :
  exists n b' l,
    write six 6 wrapped = Done (n, b', l) /\
    n = Z.min 6 (capacity_ wrapped - 1 - len (stored wrapped)) /\
    stored b' = stored wrapped ++ take (Z.to_nat n) six.
Proof.
  apply (write_enqueues small_memalign small_memalign_limit wrapped six 6).
  - exact wrapped_reachable.
  - simpl. lia.
  - apply fits_small. lia.
  - unfold len. simpl. lia.
Defined.

Lemma read_dequeues_witness :
  exists n dest' b' l,
    read (blank 6) 3 wrapped = Done ((dest', n), b', l) /\
    n = Z.min 3 (len (stored wrapped)) /\
    take (Z.to_nat n) dest' = take (Z.to_nat n) (stored wrapped) /\
    drop (Z.to_nat n) dest' = drop (Z.to_nat n) (blank 6) /\
    len dest' = len (blank 6) /\
    stored b' = drop (Z.to_nat n) (stored wrapped).
Proof.
  apply (read_dequeues small_memalign small_memalign_limit wrapped (blank 6) 3).
  - exact wrapped_reachable.
  - simpl. lia.
  - apply fits_small. lia.
  - unfold len. simpl. lia.
Defined.

Lemma read_drains_witness :
  exists dest' b' l,
    read (blank 6) 6 wrapped = Done ((dest', 5), b', l) /\
    take (Z.to_nat 5) dest' = stored wrapped /\
    availableRead b' = Done (0, b', []) /\
    availableWrite b' = Done (capacity_ wrapped - 1, b', []).
Proof.
  apply (read_drains small_memalign small_memalign_limit wrapped (blank 6) 6 5).
  - exact wrapped_reachable.
  - simpl. lia.
  - apply fits_small. lia.
  - unfold len. simpl. lia.
  - reflexivity.
  - lia.
Defined.

Lemma availability_moves_by_count_witness :
  (exists n b' l,
      write six 6 wrapped = Done (n, b', l) /\
      availableRead b' = Done (5 + n, b', []) /\
      availableWrite b' = Done (2 - n, b', [])) /\
  (exists r b' l,
      read six 6 wrapped = Done (r, b', l) /\
      availableRead b' = Done (5 - snd r, b', []) /\
      availableWrite b' = Done (2 + snd r, b', [])).
Proof.
  apply (availability_moves_by_count small_memalign small_memalign_limit
           wrapped six 6 5 2).
  - exact wrapped_reachable.
  - simpl. lia.
  - apply fits_small. lia.
  - unfold len. simpl. lia.
  - reflexivity.
  - reflexivity.
Defined.

Lemma zero_capacity_behaviour_witness :
  availableRead empty0 = Done (0, empty0, []) /\
  availableWrite empty0 = Done (SizeT.SIZE_MAX, empty0, []) /\
  read six 6 empty0 = Done ((six, 0), empty0, []) /\
  reset empty0 = Done (tt, empty0, []) /\
  write six 0 empty0 = Done (0, empty0, []) /\
  (1 <= 6 -> write six 6 empty0 = Undefined OutOfBounds).
Proof.
  apply (zero_capacity_behaviour small_memalign empty0 six 6).
  - exact empty0_reachable.
  - reflexivity.
  - apply fits_small. lia.
Defined.

Lemma usable_capacity_witness :
  exists b' l,
    write (six ++ five) 11 fresh8 = Done (8 - 1, b', l) /\
    stored b' = take (Z.to_nat (8 - 1)) (six ++ five) /\
    availableRead b' = Done (8 - 1, b', []) /\
    availableWrite b' = Done (0, b', []) /\
    (forall data' size', SizeT.fits size' ->
       write data' size' b' = Done (0, b', [])).
Proof.
  apply (usable_capacity small_memalign small_memalign_limit 8 fresh8
           (six ++ five) 11).
  - lia.
  - apply fits_small. lia.
  - reflexivity.
  - apply fits_small. lia.
  - lia.
  - unfold len. simpl. lia.
Defined.

Lemma reset_is_reconstruction_witness :
  exists b',
    reset wrapped = Done (tt, b', []) /\
    new_CircularBuffer small_memalign (capacity_ wrapped) = Constructed b' /\
    stored b' = [].
Proof.
  apply (reset_is_reconstruction small_memalign wrapped).
  exact wrapped_reachable.
Defined.

Lemma nextIndex_is_one_byte_write_witness :
  exists next,
    nextIndex (writeIndex_ full8) full8 = Done (next, full8, []) /\
    0 <= next < capacity_ full8 /\
    next = (if writeIndex_ full8 + 1 =? capacity_ full8 then 0
            else writeIndex_ full8 + 1) /\
    (forall data n b' l,
        write data 1 full8 = Done (n, b', l) -> n = 1 ->
        writeIndex_ b' = next).
Proof.
  apply (nextIndex_is_one_byte_write small_memalign full8).
  - exact full8_reachable.
  - simpl. lia.
Defined.

Lemma write_and_read_commute_witness :
  exists bw lw dest' b2 lr br lr' lw',
    write six 2 wrapped = Done (2, bw, lw) /\
    read (blank 4) 4 bw = Done ((dest', 4), b2, lr) /\
    read (blank 4) 4 wrapped = Done ((dest', 4), br, lr') /\
    write six 2 br = Done (2, b2, lw').
Proof.
  apply (write_and_read_commute small_memalign small_memalign_limit
           wrapped six (blank 4) 2 4 5 2).
  - exact wrapped_reachable.
  - simpl. lia.
  - apply fits_small. lia.
  - apply fits_small. lia.
  - unfold len. simpl. lia.
  - unfold len. simpl. lia.
  - reflexivity.
  - reflexivity.
  - lia.
  - lia.
Defined.


Lemma bridge_round_trip_witness :
  exists live2 dest' live3,
    circular_buffer_available_write 2 (<[2 := fresh8]> one_live)
      = Returns (8 - 1) (<[2 := fresh8]> one_live) /\
    circular_buffer_write 2 five (len five) (<[2 := fresh8]> one_live)
      = Returns (len five) live2 /\
    circular_buffer_read 2 (blank 5) (len five) live2
      = Returns (dest', len five) live3 /\
    take (length five) dest' = five /\
    circular_buffer_available_read 2 live3 = Returns 0 live3 /\
    circular_buffer_destroy 2 live3 = Returns tt one_live.
Proof.
  apply (bridge_round_trip small_memalign bump_new small_memalign_limit
           bump_new_fresh 8 one_live 2 (<[2 := fresh8]> one_live) five
           (blank 5)).
  - lia.
  - apply fits_small. lia.
  - vm_compute. reflexivity.
  - discriminate.
  - unfold len. simpl. lia.
  - unfold len. simpl. lia.
Defined.

Lemma buffers_are_independent_witness :
  exists live1',
    circular_buffer_read 2 (blank 2) 2 two_live
      = Returns ([x01; x02], 2) live1' /\
    circular_buffer_write 1 five 5 live1'
      = Returns 5
          (<[2 := mkCircularBuffer
                    [x01; x02; x00; x00; x00; x00; x00; x00] 8 2 2]>
             (<[1 := mkCircularBuffer
                       [x07; x08; x09; x0a; x0b; x00; x00; x00] 8 5 0]>
                two_live)) /\
    live1' !! 1 = two_live !! 1 /\
    (<[1 := mkCircularBuffer
              [x07; x08; x09; x0a; x0b; x00; x00; x00] 8 5 0]> two_live)
      !! 2 = two_live !! 2.
Proof.
  apply (buffers_are_independent 1 2 two_live five 5 5
           (<[1 := mkCircularBuffer
                     [x07; x08; x09; x0a; x0b; x00; x00; x00] 8 5 0]>
              two_live)
           (blank 2) 2 ([x01; x02], 2)).
  - lia.
  - vm_compute. reflexivity.
  - vm_compute. reflexivity.
Defined.

Lemma invalid_handles_witness :
  exists live',
    circular_buffer_destroy 1 two_live = Returns tt live' /\
    live' !! 1 = None /\
    circular_buffer_write 1 five 5 live' = Crashes DanglingHandle /\
    circular_buffer_destroy 1 live' = Crashes DanglingHandle /\
    circular_buffer_destroy nullptr two_live = Returns tt two_live /\
    circular_buffer_write nullptr five 5 two_live = Crashes NullHandle.
Proof.
  destruct (invalid_handles 1 fresh8 two_live five 5)
    as (live' & H1 & H2 & _ & H3 & _ & _ & _ & _ & H4 & H5 & H6 & _).
  - discriminate.
  - vm_compute. reflexivity.
  - exists live'. repeat split; assumption.
Defined.

Lemma live_handles_never_crash_witness :
  (exists n live',
      circular_buffer_write 1 five 5 one_live = Returns n live' /\
      sound small_memalign live') /\
  (exists q live',
      circular_buffer_create small_memalign bump_new 8 one_live
        = Returns q live' /\
      sound small_memalign live').
Proof.
  destruct (live_handles_never_crash small_memalign bump_new bump_new_fresh
              one_live 1 fresh8 five 5 8)
    as (Hw & _ & _ & _ & _ & _ & Hc).
  - exact one_live_sound.
  - vm_compute. reflexivity.
  - simpl. lia.
  - apply fits_small. lia.
  - unfold len. simpl. lia.
  - apply fits_small. lia.
  - split; assumption.
Defined.

Lemma single1_reachable : reachable small_memalign single1.
Proof.
  apply (reach_new small_memalign 1); [apply fits_small; lia | reflexivity].
Qed.

Lemma capacity_one_never_holds_data_witness :
  availableWrite single1 = Done (0, single1, []) /\
  write five 5 single1 = Done (0, single1, []) /\
  read five 5 single1 = Done ((five, 0), single1, []).
Proof.
  apply (capacity_one_never_holds_data small_memalign single1 five 5).
  - exact single1_reachable.
  - reflexivity.
  - apply fits_small. lia.
Defined.
